(** * Asylo: the enclave ThreadManager and the remote assertion generator
      enclave's sealing utilities.

    Part 1 embeds [asylo/platform/posix/threading/thread_manager.h]
    (class [ThreadManager] and its nested [Thread]) as an interleaving
    semantics: every in-flight call of [CreateThread], [StartThread] and
    [JoinThread] is a process with its own program counter, and each atomic
    action (one critical section, one wake-up) is one transition of the
    world.

    Part 2 embeds [asylo/identity/sgx/remote_assertion_generator_enclave_util.cc]
    over an interface of its collaborators (protobuf serialisation, the
    SGX local secret sealer, the signing-key library). *)

From stdpp Require Import base gmap list strings.
From Stdlib Require Import ZArith.

Module ThreadManager.

(** ** Data *)

(** [enum class ThreadState { QUEUED, RUNNING, DONE, JOINED }] *)
Inductive ThreadState := QUEUED | RUNNING | DONE | JOINED.

#[global] Instance ThreadState_eq_dec : EqDecision ThreadState.
Proof. solve_decision. Defined.

(** [pthread_t]: the identity of a donated enclave thread. *)
Definition pthread_t := nat.

(** [ThreadManager::Thread]. [start_routine_] is the
    [std::function<void *()>]; its [void *] result is modelled as [Z].
    [ret_] and [thread_id_] are [None] while the C++ field has not been
    written yet. The per-thread mutex and condition variable are not
    data: every transition below is one critical section under them. *)
Record Thread := mkThread {
  start_routine_ : unit -> Z;
  ret_ : option Z;
  thread_id_ : option pthread_t;
  state_ : ThreadState
}.

(** [Thread(std::function<void *()> start_routine)]: QUEUED, nothing set. *)
Definition new_Thread (f : unit -> Z) : Thread := mkThread f None None QUEUED.

Definition set_state (t : Thread) (s : ThreadState) : Thread :=
  mkThread (start_routine_ t) (ret_ t) (thread_id_ t) s.

(** [Thread::UpdateThreadId]. *)
Definition UpdateThreadId (t : Thread) (tid : pthread_t) : Thread :=
  mkThread (start_routine_ t) (ret_ t) (Some tid) (state_ t).

Definition set_ret (t : Thread) (v : Z) : Thread :=
  mkThread (start_routine_ t) (Some v) (thread_id_ t) (state_ t).

(** The forward successor of a state: QUEUED -> RUNNING -> DONE -> JOINED. *)
Definition next_state (s : ThreadState) : option ThreadState :=
  match s with
  | QUEUED => Some RUNNING
  | RUNNING => Some DONE
  | DONE => Some JOINED
  | JOINED => None
  end.

(** Modelled from the spec: the body of [Thread::UpdateThreadState]
    (thread_manager.cc is not part of the sources). The spec (4.1) makes
    every transition strictly forward by one state and an out-of-order
    transition a fatal assertion failure; [None] is that failure, which
    aborts the enclave. The broadcast on [state_change_cond_] is implicit:
    a blocked waiter is a process whose next action becomes enabled. *)
Definition UpdateThreadState (t : Thread) (s : ThreadState) : option Thread :=
  if decide (next_state (state_ t) = Some s) then Some (set_state t s) else None.

(** Program counter of a [StartThread] call in progress, holding the
    popped [std::shared_ptr<Thread>] (a heap reference). *)
Inductive VehiclePc :=
  | VPopped (r : nat)     (* front of queued_threads_ removed *)
  | VBound (r : nat)      (* UpdateThreadId(pthread_self()) done *)
  | VInserted (r : nat)   (* threads_[thread_id] = thread done *)
  | VRunning (r : nat).   (* in Run(): RUNNING, start_routine_ executing *)

Definition vehicle_ref (p : VehiclePc) : nat :=
  match p with VPopped r | VBound r | VInserted r | VRunning r => r end.

(** Program counter of a [JoinThread] call in progress. *)
Inductive JoinPc :=
  | JWaiting (tid : pthread_t) (r : nat)  (* GetThread found r; waits for DONE *)
  | JDone (tid : pthread_t) (r : nat)     (* woke up with r in DONE *)
  | JJoined (tid : pthread_t) (r : nat) (v : Z).
      (* r moved to JOINED, return value v captured *)

(** The world: the objects behind the [shared_ptr]s ([heap]; never
    freed, so a reference is never reused), the two containers of the
    [ThreadManager] singleton, and the calls in progress. *)
Record World := mkWorld {
  heap : gmap nat Thread;
  queued_threads_ : list nat;          (* std::queue, front = head *)
  threads_ : gmap pthread_t nat;        (* flat_hash_map<pthread_t, shared_ptr> *)
  creators : gset nat;                  (* CreateThread calls waiting, by their Thread *)
  vehicles : gmap pthread_t VehiclePc;  (* StartThread calls, by pthread_self() *)
  joiners : gmap nat JoinPc             (* JoinThread calls, by caller *)
}.

Inductive Config := Live (w : World) | Aborted.

Definition init : World := mkWorld ∅ [] ∅ ∅ ∅ ∅.

(** Observable events; [EvTau] is an internal step. *)
Inductive Event :=
  | EvSubmit (r : nat) (f : unit -> Z)        (* CreateThread queued r running f *)
  | EvCreateRet (r : nat) (tid : pthread_t)   (* CreateThread of r returned tid *)
  | EvClaim (r : nat) (tid : pthread_t)       (* StartThread on tid popped r *)
  | EvInvoke (r : nat) (v : Z)                (* start_routine_ of r returned v *)
  | EvJoinFail (tid : pthread_t)              (* JoinThread(tid): no such thread *)
  | EvJoinRet (tid : pthread_t) (r : nat) (v : Z)  (* JoinThread(tid) joined r, got v *)
  | EvAbort
  | EvTau.

(** The scheduler's choices. [ACreate r f]: a caller enters
    [CreateThread(f)]; [r] is the fresh object [make_shared] allocates.
    [AStart tid]: a donated thread with [pthread_self() = tid] enters
    [StartThread]. [AJoin j tid]: caller [j] enters [JoinThread(tid)]. *)
Inductive Action :=
  | ACreate (r : nat) (f : unit -> Z)
  | ACreateRet (r : nat)
  | AStart (tid : pthread_t)
  | ABind (tid : pthread_t)
  | AInsert (tid : pthread_t)
  | ARunStart (tid : pthread_t)
  | ARunFinish (tid : pthread_t)
  | AJoin (j : nat) (tid : pthread_t)
  | AJoinWake (j : nat)
  | AJoinCapture (j : nat)
  | AJoinRet (j : nat).

Definition with_heap (w : World) (h : gmap nat Thread) : World :=
  mkWorld h (queued_threads_ w) (threads_ w) (creators w) (vehicles w) (joiners w).
Definition with_queue (w : World) (q : list nat) : World :=
  mkWorld (heap w) q (threads_ w) (creators w) (vehicles w) (joiners w).
Definition with_threads (w : World) (m : gmap pthread_t nat) : World :=
  mkWorld (heap w) (queued_threads_ w) m (creators w) (vehicles w) (joiners w).
Definition with_creators (w : World) (s : gset nat) : World :=
  mkWorld (heap w) (queued_threads_ w) (threads_ w) s (vehicles w) (joiners w).
Definition with_vehicles (w : World) (v : gmap pthread_t VehiclePc) : World :=
  mkWorld (heap w) (queued_threads_ w) (threads_ w) (creators w) v (joiners w).
Definition with_joiners (w : World) (j : gmap nat JoinPc) : World :=
  mkWorld (heap w) (queued_threads_ w) (threads_ w) (creators w) (vehicles w) j.

(** ** Operations *)

(** [CreateThread], up to its wait: [make_shared<Thread>(start_routine)],
    [queued_threads_.emplace(thread)] under [queued_threads_lock_], then the
    request for a donated thread (no effect on the enclave's state: the
    donated thread shows up later as an [AStart]). *)
Definition CreateThread_enqueue (w : World) (r : nat) (f : unit -> Z) : World :=
  mkWorld (<[r := new_Thread f]> (heap w)) (queued_threads_ w ++ [r])
          (threads_ w) ({[r]} ∪ creators w) (vehicles w) (joiners w).

(** [CreateThread], after [WaitForThreadToExitState(QUEUED)] returned:
    [*thread_id_out = thread->GetThreadId()]. Enabled once [r] has left
    QUEUED. *)
Definition CreateThread_return (w : World) (r : nat) : option (Event * Config) :=
  if decide (r ∈ creators w) then
    match heap w !! r with
    | Some t =>
        if decide (state_ t = QUEUED) then None
        else match thread_id_ t with
             | Some tid => Some (EvCreateRet r tid, Live (with_creators w (creators w ∖ {[r]})))
             | None => None
             end
    | None => None
    end
  else None.

(** [StartThread], first critical section (under [queued_threads_lock_]):
    with an empty queue it calls [abort()] (header comment); otherwise it
    pops the front. The arriving donated thread's identity [tid] is not the
    identity of a thread still bound in the manager (spec 3: no two
    logical threads are bound to one identity at a time): this is the
    environment's obligation, checked only after the queue test. *)
Definition StartThread_pop (w : World) (tid : pthread_t) : option (Event * Config) :=
  match queued_threads_ w with
  | [] => Some (EvAbort, Aborted)
  | r :: q =>
      match vehicles w !! tid, threads_ w !! tid with
      | None, None =>
          Some (EvClaim r tid,
                Live (with_vehicles (with_queue w q) (<[tid := VPopped r]> (vehicles w))))
      | _, _ => None
      end
  end.

(** Modelled from the spec: the rest of [StartThread] and [Thread::Run]
    (thread_manager.cc is not part of the sources). The order is the one
    the header fixes: the thread is bound to [tid] ([UpdateThreadId]) and
    stored in [threads_] ("currently running threads or threads waiting to
    be joined") before [Run()], which "moves the thread into the RUNNING
    state, runs the thread's start_routine, and then sets the state to
    DONE". Each of the four is its own critical section. *)
Definition StartThread_step (w : World) (tid : pthread_t) (a : Action)
    : option (Event * Config) :=
  match a, vehicles w !! tid with
  | ABind _, Some (VPopped r) =>
      match heap w !! r with
      | Some t =>
          Some (EvTau, Live (with_vehicles (with_heap w (<[r := UpdateThreadId t tid]> (heap w)))
                                           (<[tid := VBound r]> (vehicles w))))
      | None => None
      end
  | AInsert _, Some (VBound r) =>
      Some (EvTau, Live (with_vehicles (with_threads w (<[tid := r]> (threads_ w)))
                                       (<[tid := VInserted r]> (vehicles w))))
  | ARunStart _, Some (VInserted r) =>
      match heap w !! r with
      | Some t =>
          match UpdateThreadState t RUNNING with
          | Some t' =>
              Some (EvTau, Live (with_vehicles (with_heap w (<[r := t']> (heap w)))
                                               (<[tid := VRunning r]> (vehicles w))))
          | None => Some (EvAbort, Aborted)
          end
      | None => None
      end
  | ARunFinish _, Some (VRunning r) =>
      match heap w !! r with
      | Some t =>
          let v := start_routine_ t tt in
          match UpdateThreadState (set_ret t v) DONE with
          | Some t' =>
              Some (EvInvoke r v, Live (with_vehicles (with_heap w (<[r := t']> (heap w)))
                                                      (delete tid (vehicles w))))
          | None => Some (EvAbort, Aborted)
          end
      | None => None
      end
  | _, _ => None
  end.

(** [JoinThread], first step: [GetThread(thread_id)] under [threads_lock_].
    Not found: the call returns at once with the no-such-thread error. *)
Definition JoinThread_lookup (w : World) (j : nat) (tid : pthread_t) : Event * Config :=
  match threads_ w !! tid with
  | None => (EvJoinFail tid, Live w)
  | Some r => (EvTau, Live (with_joiners w (<[j := JWaiting tid r]> (joiners w))))
  end.

(** Modelled from the spec (4.4): the rest of [JoinThread]. Wait until
    the thread enters DONE ([WaitForThreadToEnterState(DONE)]); move it to
    JOINED and capture its return value; erase [thread_id] from
    [threads_] under [threads_lock_] and return the value. *)
Definition JoinThread_step (w : World) (j : nat) (a : Action) : option (Event * Config) :=
  match a, joiners w !! j with
  | AJoinWake _, Some (JWaiting tid r) =>
      match heap w !! r with
      | Some t =>
          if decide (state_ t = DONE)
          then Some (EvTau, Live (with_joiners w (<[j := JDone tid r]> (joiners w))))
          else None
      | None => None
      end
  | AJoinCapture _, Some (JDone tid r) =>
      match heap w !! r with
      | Some t =>
          match UpdateThreadState t JOINED with
          | Some t' =>
              match ret_ t' with
              | Some v =>
                  Some (EvTau, Live (with_joiners (with_heap w (<[r := t']> (heap w)))
                                                  (<[j := JJoined tid r v]> (joiners w))))
              | None => None
              end
          | None => Some (EvAbort, Aborted)
          end
      | None => None
      end
  | AJoinRet _, Some (JJoined tid r v) =>
      Some (EvJoinRet tid r v,
            Live (with_joiners (with_threads w (delete tid (threads_ w))) (delete j (joiners w))))
  | _, _ => None
  end.

(** One atomic action of the system; [None] when it is not enabled. *)
Definition exec (c : Config) (a : Action) : option (Event * Config) :=
  match c with
  | Aborted => None
  | Live w =>
      match a with
      | ACreate r f =>
          match heap w !! r with
          | None => Some (EvSubmit r f, Live (CreateThread_enqueue w r f))
          | Some _ => None
          end
      | ACreateRet r => CreateThread_return w r
      | AStart tid => StartThread_pop w tid
      | ABind tid | AInsert tid | ARunStart tid | ARunFinish tid => StartThread_step w tid a
      | AJoin j tid =>
          match joiners w !! j with
          | None => Some (JoinThread_lookup w j tid)
          | Some _ => None
          end
      | AJoinWake j | AJoinCapture j | AJoinRet j => JoinThread_step w j a
      end
  end.

(** Every interleaving from the empty manager, with its trace. *)
Inductive reach : Config -> list Event -> Prop :=
  | reach_init : reach (Live init) []
  | reach_step c tr a e c' :
      reach c tr -> exec c a = Some (e, c') -> reach c' (tr ++ [e]).

(** A schedule run from a configuration. *)
Fixpoint run (c : Config) (tr : list Event) (acts : list Action)
    : option (Config * list Event) :=
  match acts with
  | [] => Some (c, tr)
  | a :: acts' =>
      match exec c a with
      | Some (e, c') => run c' (tr ++ [e]) acts'
      | None => None
      end
  end.

Definition join_ref (p : JoinPc) : nat :=
  match p with JWaiting _ r | JDone _ r | JJoined _ r _ => r end.
Definition join_tid (p : JoinPc) : pthread_t :=
  match p with JWaiting tid _ | JDone tid _ | JJoined tid _ _ => tid end.

(** ** Observations on traces *)

(** The Threads submitted ([CreateThread]) and claimed ([StartThread]),
    in trace order. *)
Fixpoint submits (tr : list Event) : list nat :=
  match tr with
  | [] => []
  | EvSubmit r _ :: tr' => r :: submits tr'
  | _ :: tr' => submits tr'
  end.

Fixpoint claims (tr : list Event) : list nat :=
  match tr with
  | [] => []
  | EvClaim r _ :: tr' => r :: claims tr'
  | _ :: tr' => claims tr'
  end.

(** How many times the [start_routine_] of Thread [r] has returned. *)
Fixpoint invoke_count (r : nat) (tr : list Event) : nat :=
  match tr with
  | [] => 0
  | EvInvoke r' _ :: tr' => (if decide (r' = r) then 1 else 0) + invoke_count r tr'
  | _ :: tr' => invoke_count r tr'
  end.

Definition done_count (o : option Thread) : nat :=
  match o with
  | Some t => match state_ t with DONE | JOINED => 1 | _ => 0 end
  | None => 0
  end.

(** Thread [r] was claimed on [tid] and no join of [tid] completed since. *)
Definition claimed_since (tr : list Event) (r : nat) (tid : pthread_t) : Prop :=
  ∃ tr1 tr2, tr = tr1 ++ EvClaim r tid :: tr2 ∧ ∀ r' v, ¬ In (EvJoinRet tid r' v) tr2.

(** ** Concrete schedules *)

Definition trace_of (acts : list Action) : list Event :=
  match run (Live init) [] acts with Some (_, tr) => tr | None => [] end.

Definition world_of (acts : list Action) : World :=
  match run (Live init) [] acts with Some (Live w, _) => w | _ => init end.

(** The schedule runs to its end without aborting. *)
Definition live_ok (acts : list Action) : bool :=
  match run (Live init) [] acts with Some (Live _, _) => true | _ => false end.

(** Two submissions, claimed by donated threads 9 and 3 in that order. *)
Definition sched_fifo : list Action :=
  [ACreate 0 (fun _ => 10%Z); ACreate 1 (fun _ => 11%Z); AStart 9; AStart 3].

(** One thread runs to completion on donated thread 7 before its
    [CreateThread] returns. *)
Definition sched_running (f : unit -> Z) : list Action :=
  [ACreate 0 f; AStart 7; ABind 7; AInsert 7; ARunStart 7].
Definition sched_run (f : unit -> Z) : list Action := sched_running f ++ [ARunFinish 7].

(** ... and is then joined by caller 1. *)
Definition sched_joined (f : unit -> Z) : list Action :=
  sched_run f ++ [AJoin 1 7; AJoinWake 1; AJoinCapture 1; AJoinRet 1].

(** The world and trace after [sched_joined] with a routine returning 42. *)
Definition joined_world : World := world_of (sched_joined (fun _ => 42%Z)).
Definition joined_trace : list Event := trace_of (sched_joined (fun _ => 42%Z)).

(** A world in which a [StartThread] call on donated thread 7 would finish
    [Run()] a second time for Thread 0, which is already DONE. *)
Definition second_run_world : World :=
  mkWorld {[0 := mkThread (fun _ => 42%Z) (Some 42%Z) (Some 7) DONE]} [] ∅ ∅
          {[7 := VRunning 0]} ∅.

(** Donated thread 7 claims and binds Thread 0, and (second schedule)
    stores it in [threads_], before [CreateThread] returns. *)
Definition sched_bound : list Action := [ACreate 0 (fun _ => 5%Z); AStart 7; ABind 7].
Definition sched_inserted : list Action := sched_bound ++ [AInsert 7].

(** Readings of "identity issued" and "identity reclaimed by a join". *)
Definition issued_by_claim (tr : list Event) (tid : pthread_t) : Prop :=
  ∃ r, In (EvClaim r tid) tr.
Definition issued_by_return (tr : list Event) (tid : pthread_t) : Prop :=
  ∃ r, In (EvCreateRet r tid) tr.
Definition reclaimed (tr : list Event) (tid : pthread_t) : Prop :=
  ∃ tr1 r v tr2, tr = tr1 ++ EvJoinRet tid r v :: tr2 ∧ ∀ r', ¬ In (EvClaim r' tid) tr2.

(** ** Invariants of the reachable worlds *)

Definition vehicle_ok (w : World) (tid : pthread_t) (p : VehiclePc) : Prop :=
  ∃ t, heap w !! vehicle_ref p = Some t ∧
  match p with
  | VPopped r => state_ t = QUEUED ∧ thread_id_ t = None ∧ threads_ w !! tid = None
  | VBound r => state_ t = QUEUED ∧ thread_id_ t = Some tid ∧ threads_ w !! tid = None
  | VInserted r => state_ t = QUEUED ∧ thread_id_ t = Some tid ∧ threads_ w !! tid = Some r
  | VRunning r => state_ t = RUNNING ∧ thread_id_ t = Some tid ∧ threads_ w !! tid = Some r
  end.

Definition joiner_ok (w : World) (p : JoinPc) : Prop :=
  match p with
  | JWaiting tid r => ∃ t, heap w !! r = Some t ∧ thread_id_ t = Some tid
  | JDone tid r => ∃ t, heap w !! r = Some t ∧ thread_id_ t = Some tid ∧
                        (state_ t = DONE ∨ state_ t = JOINED)
  | JJoined tid r v => ∃ t, heap w !! r = Some t ∧ thread_id_ t = Some tid ∧
                        state_ t = JOINED ∧ ret_ t = Some v ∧ threads_ w !! tid = Some r
  end.

(** The structural invariant of the manager's data. *)
Record Wf (w : World) : Prop := {
  wf_queue_nodup : NoDup (queued_threads_ w);
  wf_queue : ∀ r, r ∈ queued_threads_ w →
    (∃ t, heap w !! r = Some t ∧ state_ t = QUEUED ∧ thread_id_ t = None) ∧
    (∀ tid p, vehicles w !! tid = Some p → vehicle_ref p ≠ r);
  wf_vehicle : ∀ tid p, vehicles w !! tid = Some p → vehicle_ok w tid p;
  wf_vehicle_uniq : ∀ tid1 tid2 p1 p2, vehicles w !! tid1 = Some p1 →
    vehicles w !! tid2 = Some p2 → vehicle_ref p1 = vehicle_ref p2 → tid1 = tid2;
  wf_map : ∀ tid r, threads_ w !! tid = Some r →
    ∃ t, heap w !! r = Some t ∧ thread_id_ t = Some tid;
  wf_active : ∀ r t tid, heap w !! r = Some t → thread_id_ t = Some tid →
    (state_ t = RUNNING ∨ state_ t = DONE) → threads_ w !! tid = Some r;
  wf_joiner : ∀ j p, joiners w !! j = Some p → joiner_ok w p;
  wf_joined_uniq : ∀ j1 j2 tid1 tid2 r v1 v2, joiners w !! j1 = Some (JJoined tid1 r v1) →
    joiners w !! j2 = Some (JJoined tid2 r v2) → j1 = j2;
  wf_ret : ∀ r t, heap w !! r = Some t → (state_ t = DONE ∨ state_ t = JOINED) →
    ret_ t = Some (start_routine_ t tt)
}.

(** The invariant linking a reachable world to the trace that led to it. *)
Record Tr (w : World) (tr : list Event) : Prop := {
  tr_fifo : submits tr = claims tr ++ queued_threads_ w;
  tr_submit : ∀ r t, heap w !! r = Some t → In (EvSubmit r (start_routine_ t)) tr;
  tr_submit_heap : ∀ r f, In (EvSubmit r f) tr →
    ∃ t, heap w !! r = Some t ∧ start_routine_ t = f;
  tr_claimed : ∀ r t tid, heap w !! r = Some t → thread_id_ t = Some tid →
    In (EvClaim r tid) tr;
  tr_vehicle : ∀ tid p, vehicles w !! tid = Some p → claimed_since tr (vehicle_ref p) tid;
  tr_map : ∀ tid r, threads_ w !! tid = Some r → claimed_since tr r tid;
  tr_createret : ∀ r tid, In (EvCreateRet r tid) tr →
    ∃ t, heap w !! r = Some t ∧ thread_id_ t = Some tid ∧ state_ t ≠ QUEUED;
  tr_joinret : ∀ tid r v, In (EvJoinRet tid r v) tr →
    ∃ t, heap w !! r = Some t ∧ thread_id_ t = Some tid ∧ v = start_routine_ t tt;
  tr_invoke : ∀ r, invoke_count r tr = done_count (heap w !! r)
}.

Lemma Wf_init : Wf init.
Proof.
  constructor; cbn; intros *; try rewrite lookup_empty; try done.
  - constructor.
  - intros H. inversion H.
Qed.

Lemma vehicle_ok_frame w w' tid p :
  vehicle_ok w tid p → heap w' !! vehicle_ref p = heap w !! vehicle_ref p →
  threads_ w' !! tid = threads_ w !! tid → vehicle_ok w' tid p.
Proof.
  unfold vehicle_ok. intros (t & Ht & H) E1 E2. exists t. rewrite E1. split; [done|].
  destruct p; rewrite E2; done.
Qed.

Lemma joiner_ok_frame w w' p :
  joiner_ok w p → heap w' !! join_ref p = heap w !! join_ref p →
  match p with
  | JJoined tid _ _ => threads_ w' !! tid = threads_ w !! tid
  | _ => True
  end → joiner_ok w' p.
Proof. destruct p; cbn; intros H E1 E2; rewrite E1; [done|done|rewrite E2; done]. Qed.

Lemma vehicle_ok_heap w tid p : vehicle_ok w tid p → is_Some (heap w !! vehicle_ref p).
Proof. intros (t & Ht & _). eauto. Qed.

Lemma joiner_ok_heap w p : joiner_ok w p → is_Some (heap w !! join_ref p).
Proof. destruct p; cbn; intros (t & Ht & _); eauto. Qed.

Lemma Wf_create w r f :
  Wf w → heap w !! r = None → Wf (CreateThread_enqueue w r f).
Proof.
  intros W Hr. destruct W as [Wnd Wq Wv Wu Wm Wa Wj Wju Wr].
  assert (Hq : r ∉ queued_threads_ w).
  { intros Hin. destruct (Wq r Hin) as [(t & Ht & _) _]. congruence. }
  assert (Hv : ∀ tid p, vehicles w !! tid = Some p → vehicle_ref p ≠ r).
  { intros tid p Hp E. destruct (vehicle_ok_heap _ _ _ (Wv _ _ Hp)) as [x Hx].
    rewrite E in Hx. congruence. }
  assert (Hj : ∀ j p, joiners w !! j = Some p → join_ref p ≠ r).
  { intros j p Hp E. destruct (joiner_ok_heap _ _ (Wj _ _ Hp)) as [x Hx].
    rewrite E in Hx. congruence. }
  constructor; cbn.
  - apply NoDup_app. split; [done|]. split; [|apply NoDup_singleton].
    intros x Hx Hx'. apply list_elem_of_singleton in Hx'. subst. done.
  - intros r' Hin. apply elem_of_app in Hin as [Hin | Hin].
    + destruct (Wq r' Hin) as [(t & Ht & H1 & H2) H3].
      assert (r ≠ r') by (intros ->; congruence).
      split; [|done]. exists t. rewrite lookup_insert_ne; done.
    + apply list_elem_of_singleton in Hin. subst r'.
      split; [|done]. exists (new_Thread f). rewrite lookup_insert_eq; done.
  - intros tid p Hp. eapply vehicle_ok_frame; [eauto| |done].
    cbn. rewrite lookup_insert_ne; [done|]. apply not_eq_sym. eauto.
  - done.
  - intros tid r' Hm. destruct (Wm _ _ Hm) as (t & Ht & Hid).
    assert (r ≠ r') by (intros ->; congruence).
    exists t. rewrite lookup_insert_ne; done.
  - intros r' t tid Ht Hid Hs. destruct (decide (r = r')) as [->|Hne].
    + rewrite lookup_insert_eq in Ht. injection Ht as <-. cbn in Hs. destruct Hs; congruence.
    + rewrite lookup_insert_ne in Ht by done. eauto.
  - intros j p Hp. eapply joiner_ok_frame; [eauto| |destruct p; done].
    cbn. rewrite lookup_insert_ne; [done|]. apply not_eq_sym. eauto.
  - done.
  - intros r' t Ht Hs. destruct (decide (r = r')) as [->|Hne].
    + rewrite lookup_insert_eq in Ht. injection Ht as <-. cbn in Hs. destruct Hs; congruence.
    + rewrite lookup_insert_ne in Ht by done. eauto.
Qed.

Lemma Wf_creators w s : Wf w → Wf (with_creators w s).
Proof. intros []. constructor; cbn; eauto. Qed.

Lemma Wf_pop w r q tid :
  Wf w → queued_threads_ w = r :: q → vehicles w !! tid = None → threads_ w !! tid = None →
  Wf (with_vehicles (with_queue w q) (<[tid := VPopped r]> (vehicles w))).
Proof.
  intros W Hq Hv Ht. destruct W as [Wnd Wq Wv Wu Wm Wa Wj Wju Wr].
  rewrite Hq in Wnd, Wq. apply NoDup_cons in Wnd as [Hrq Wnd].
  destruct (Wq r (list_elem_of_here _ _)) as [(t & Htr & Hs & Hid) Hnv].
  constructor; cbn; try done.
  - intros r' Hin. destruct (Wq r' (list_elem_of_further _ _ _ Hin)) as [H1 H2].
    split; [done|]. intros tid' p Hp. destruct (decide (tid = tid')) as [<-|Hne].
    + rewrite lookup_insert_eq in Hp. injection Hp as <-. cbn. intros <-. done.
    + rewrite lookup_insert_ne in Hp by done. eauto.
  - intros tid' p Hp. destruct (decide (tid = tid')) as [<-|Hne].
    + rewrite lookup_insert_eq in Hp. injection Hp as <-. exists t. cbn. auto.
    + rewrite lookup_insert_ne in Hp by done. eapply vehicle_ok_frame; eauto.
  - intros tid1 tid2 p1 p2 H1 H2 E.
    destruct (decide (tid = tid1)) as [<-|Hne1], (decide (tid = tid2)) as [<-|Hne2].
    + done.
    + rewrite lookup_insert_eq in H1. rewrite lookup_insert_ne in H2 by done.
      injection H1 as <-. cbn in E. exfalso. eapply Hnv; eauto.
    + rewrite lookup_insert_eq in H2. rewrite lookup_insert_ne in H1 by done.
      injection H2 as <-. cbn in E. exfalso. eapply Hnv; eauto.
    + rewrite lookup_insert_ne in H1, H2 by done. eauto.
Qed.

Lemma Wf_bind w tid r t :
  Wf w → vehicles w !! tid = Some (VPopped r) → heap w !! r = Some t →
  Wf (with_vehicles (with_heap w (<[r := UpdateThreadId t tid]> (heap w)))
                    (<[tid := VBound r]> (vehicles w))).
Proof.
  intros W Hv Ht. destruct W as [Wnd Wq Wv Wu Wm Wa Wj Wju Wr].
  destruct (Wv _ _ Hv) as (t0 & Ht0 & Hs & Hid & Hm). cbn in Ht0.
  rewrite Ht in Ht0. injection Ht0 as <-.
  assert (Href : ∀ tid' p, vehicles w !! tid' = Some p → vehicle_ref p = r → tid' = tid).
  { intros tid' p Hp E. eapply Wu; eauto. }
  constructor; cbn; try done.
  - intros r' Hin. destruct (Wq r' Hin) as [(t' & Ht' & H1) H2].
    assert (r ≠ r') by (intros <-; exact (H2 _ _ Hv eq_refl)).
    split.
    + exists t'. rewrite lookup_insert_ne; done.
    + intros tid' p Hp. destruct (decide (tid = tid')) as [<-|Hne].
      * rewrite lookup_insert_eq in Hp. injection Hp as <-. done.
      * rewrite lookup_insert_ne in Hp by done. eauto.
  - intros tid' p Hp. destruct (decide (tid = tid')) as [<-|Hne].
    + rewrite lookup_insert_eq in Hp. injection Hp as <-.
      exists (UpdateThreadId t tid). cbn. rewrite lookup_insert_eq. auto.
    + rewrite lookup_insert_ne in Hp by done. eapply (vehicle_ok_frame w); [eauto| |done].
      cbn. rewrite lookup_insert_ne; [done|]. intros E. apply Hne. symmetry.
      apply (Href tid' p Hp). symmetry. done.
  - intros tid1 tid2 p1 p2 H1 H2 E.
    destruct (decide (tid = tid1)) as [<-|Hne1], (decide (tid = tid2)) as [<-|Hne2].
    + done.
    + rewrite lookup_insert_eq in H1. rewrite lookup_insert_ne in H2 by done.
      injection H1 as <-. cbn in E. symmetry. apply (Href tid2 p2 H2). symmetry. done.
    + rewrite lookup_insert_eq in H2. rewrite lookup_insert_ne in H1 by done.
      injection H2 as <-. cbn in E. apply (Href tid1 p1 H1). done.
    + rewrite lookup_insert_ne in H1, H2 by done. eauto.
  - intros tid' r' Hm'. destruct (Wm _ _ Hm') as (t' & Ht' & Hid').
    assert (r ≠ r') by (intros <-; congruence).
    exists t'. rewrite lookup_insert_ne; done.
  - intros r' t' tid' Ht' Hid' Hs'. destruct (decide (r = r')) as [<-|Hne].
    + rewrite lookup_insert_eq in Ht'. injection Ht' as <-. cbn in Hs'. destruct Hs'; congruence.
    + rewrite lookup_insert_ne in Ht' by done. exact (Wa _ _ _ Ht' Hid' Hs').
  - intros j p Hp. pose proof (Wj _ _ Hp) as Hj. eapply joiner_ok_frame; [done| |].
    + cbn. rewrite lookup_insert_ne; [done|]. intros E.
      destruct p; cbn in Hj, E; subst;
      [destruct Hj as (t' & Ht' & Hid')|destruct Hj as (t' & Ht' & Hid' & _)
      |destruct Hj as (t' & Ht' & Hid' & _)]; congruence.
    + destruct p; done.
  - intros r' t' Ht' Hs'. destruct (decide (r = r')) as [<-|Hne].
    + rewrite lookup_insert_eq in Ht'. injection Ht' as <-. cbn in Hs'. destruct Hs'; congruence.
    + rewrite lookup_insert_ne in Ht' by done. eauto.
Qed.

Lemma Wf_insert w tid r :
  Wf w → vehicles w !! tid = Some (VBound r) →
  Wf (with_vehicles (with_threads w (<[tid := r]> (threads_ w)))
                    (<[tid := VInserted r]> (vehicles w))).
Proof.
  intros W Hv. destruct W as [Wnd Wq Wv Wu Wm Wa Wj Wju Wr].
  destruct (Wv _ _ Hv) as (t & Ht & Hs & Hid & Hm). cbn in Ht.
  constructor; cbn; try done.
  - intros r' Hin. destruct (Wq r' Hin) as [H1 H2]. split; [done|].
    intros tid' p Hp. destruct (decide (tid = tid')) as [<-|Hne].
    + rewrite lookup_insert_eq in Hp. injection Hp as <-. exact (H2 _ _ Hv).
    + rewrite lookup_insert_ne in Hp by done. eauto.
  - intros tid' p Hp. destruct (decide (tid = tid')) as [<-|Hne].
    + rewrite lookup_insert_eq in Hp. injection Hp as <-.
      exists t. cbn. rewrite lookup_insert_eq. auto.
    + rewrite lookup_insert_ne in Hp by done. eapply (vehicle_ok_frame w); [eauto|done|].
      cbn. rewrite lookup_insert_ne; done.
  - intros tid1 tid2 p1 p2 H1 H2 E.
    destruct (decide (tid = tid1)) as [<-|Hne1], (decide (tid = tid2)) as [<-|Hne2].
    + done.
    + rewrite lookup_insert_eq in H1. rewrite lookup_insert_ne in H2 by done.
      injection H1 as <-. eapply Wu; [exact Hv|exact H2|exact E].
    + rewrite lookup_insert_eq in H2. rewrite lookup_insert_ne in H1 by done.
      injection H2 as <-. eapply Wu; [exact H1|exact Hv|exact E].
    + rewrite lookup_insert_ne in H1, H2 by done. eauto.
  - intros tid' r' Hm'. destruct (decide (tid = tid')) as [<-|Hne].
    + rewrite lookup_insert_eq in Hm'. injection Hm' as <-. eauto.
    + rewrite lookup_insert_ne in Hm' by done. eauto.
  - intros r' t' tid' Ht' Hid' Hs'. destruct (decide (tid = tid')) as [<-|Hne].
    + rewrite (Wa _ _ _ Ht' Hid' Hs') in Hm. discriminate.
    + rewrite lookup_insert_ne by done. exact (Wa _ _ _ Ht' Hid' Hs').
  - intros j p Hp. pose proof (Wj _ _ Hp) as Hj. eapply joiner_ok_frame; [done|done|].
    destruct p as [| |tid' r' v]; [done|done|]. cbn.
    destruct (decide (tid = tid')) as [<-|Hne].
    + cbn in Hj. destruct Hj as (t' & _ & _ & _ & _ & Hm'). congruence.
    + rewrite lookup_insert_ne; done.
Qed.

Lemma Wf_runstart w tid r t t' :
  Wf w → vehicles w !! tid = Some (VInserted r) → heap w !! r = Some t →
  UpdateThreadState t RUNNING = Some t' →
  Wf (with_vehicles (with_heap w (<[r := t']> (heap w)))
                    (<[tid := VRunning r]> (vehicles w))).
Proof.
  intros W Hv Ht Hu. destruct W as [Wnd Wq Wv Wu Wm Wa Wj Wju Wr].
  destruct (Wv _ _ Hv) as (t0 & Ht0 & Hs & Hid & Hm). cbn in Ht0.
  rewrite Ht in Ht0. injection Ht0 as <-.
  unfold UpdateThreadState in Hu. rewrite Hs in Hu. cbn in Hu.
  injection Hu as <-.
  assert (Href : ∀ tid' p, vehicles w !! tid' = Some p → vehicle_ref p = r → tid' = tid).
  { intros tid' p Hp E. eapply Wu; [exact Hp|exact Hv|exact E]. }
  constructor; cbn; try done.
  - intros r' Hin. destruct (Wq r' Hin) as [(t' & Ht' & H1) H2].
    assert (r ≠ r') by (intros <-; exact (H2 _ _ Hv eq_refl)).
    split.
    + exists t'. rewrite lookup_insert_ne; done.
    + intros tid' p Hp. destruct (decide (tid = tid')) as [<-|Hne].
      * rewrite lookup_insert_eq in Hp. injection Hp as <-. done.
      * rewrite lookup_insert_ne in Hp by done. eauto.
  - intros tid' p Hp. destruct (decide (tid = tid')) as [<-|Hne].
    + rewrite lookup_insert_eq in Hp. injection Hp as <-.
      eexists. cbn. rewrite lookup_insert_eq. split; [done|]. cbn. auto.
    + rewrite lookup_insert_ne in Hp by done. eapply (vehicle_ok_frame w); [eauto| |done].
      cbn. rewrite lookup_insert_ne; [done|]. intros E. apply Hne. symmetry.
      apply (Href tid' p Hp). symmetry. done.
  - intros tid1 tid2 p1 p2 H1 H2 E.
    destruct (decide (tid = tid1)) as [<-|Hne1], (decide (tid = tid2)) as [<-|Hne2].
    + done.
    + rewrite lookup_insert_eq in H1. rewrite lookup_insert_ne in H2 by done.
      injection H1 as <-. cbn in E. symmetry. apply (Href tid2 p2 H2). symmetry. done.
    + rewrite lookup_insert_eq in H2. rewrite lookup_insert_ne in H1 by done.
      injection H2 as <-. cbn in E. apply (Href tid1 p1 H1). done.
    + rewrite lookup_insert_ne in H1, H2 by done. eauto.
  - intros tid' r' Hm'. destruct (Wm _ _ Hm') as (t' & Ht' & Hid').
    destruct (decide (r = r')) as [<-|Hne].
    + eexists. rewrite lookup_insert_eq. split; [done|]. cbn. congruence.
    + exists t'. rewrite lookup_insert_ne; done.
  - intros r' t' tid' Ht' Hid' Hs'. destruct (decide (r = r')) as [<-|Hne].
    + rewrite lookup_insert_eq in Ht'. injection Ht' as <-. cbn in Hid'. congruence.
    + rewrite lookup_insert_ne in Ht' by done. exact (Wa _ _ _ Ht' Hid' Hs').
  - intros j p Hp. pose proof (Wj _ _ Hp) as Hj.
    destruct (decide (join_ref p = r)) as [E|Hne].
    + destruct p as [tid' r'|tid' r'|tid' r' v]; cbn in E, Hj; subst r';
        rewrite Ht in Hj.
      * destruct Hj as (t' & Ht' & Hid'). injection Ht' as <-.
        cbn. rewrite lookup_insert_eq. eexists. split; [done|]. done.
      * destruct Hj as (t' & Ht' & Hid' & Hs'). injection Ht' as <-. rewrite Hs in Hs'.
        destruct Hs'; discriminate.
      * destruct Hj as (t' & Ht' & Hid' & Hs' & _). injection Ht' as <-. congruence.
    + eapply joiner_ok_frame; [done| |destruct p; done].
      cbn. rewrite lookup_insert_ne; [done|]. intros E. apply Hne. symmetry. done.
  - intros r' t' Ht' Hs'. destruct (decide (r = r')) as [<-|Hne].
    + rewrite lookup_insert_eq in Ht'. injection Ht' as <-. cbn in Hs'.
      destruct Hs'; discriminate.
    + rewrite lookup_insert_ne in Ht' by done. eauto.
Qed.

Lemma Wf_runfinish w tid r t t' :
  Wf w → vehicles w !! tid = Some (VRunning r) → heap w !! r = Some t →
  UpdateThreadState (set_ret t (start_routine_ t tt)) DONE = Some t' →
  Wf (with_vehicles (with_heap w (<[r := t']> (heap w))) (delete tid (vehicles w))).
Proof.
  intros W Hv Ht Hu. destruct W as [Wnd Wq Wv Wu Wm Wa Wj Wju Wr].
  destruct (Wv _ _ Hv) as (t0 & Ht0 & Hs & Hid & Hm). cbn in Ht0.
  rewrite Ht in Ht0. injection Ht0 as <-.
  unfold UpdateThreadState in Hu. cbn in Hu. rewrite Hs in Hu. cbn in Hu.
  injection Hu as <-.
  assert (Href : ∀ tid' p, vehicles w !! tid' = Some p → vehicle_ref p = r → tid' = tid).
  { intros tid' p Hp E. eapply Wu; [exact Hp|exact Hv|exact E]. }
  constructor; cbn; try done.
  - intros r' Hin. destruct (Wq r' Hin) as [(t' & Ht' & H1) H2].
    assert (r ≠ r') by (intros <-; exact (H2 _ _ Hv eq_refl)).
    split.
    + exists t'. rewrite lookup_insert_ne; done.
    + intros tid' p Hp. destruct (decide (tid = tid')) as [<-|Hne].
      * rewrite lookup_delete_eq in Hp. discriminate.
      * rewrite lookup_delete_ne in Hp by done. eauto.
  - intros tid' p Hp. destruct (decide (tid = tid')) as [<-|Hne].
    + rewrite lookup_delete_eq in Hp. discriminate.
    + rewrite lookup_delete_ne in Hp by done. eapply (vehicle_ok_frame w); [eauto| |done].
      cbn. rewrite lookup_insert_ne; [done|]. intros E. apply Hne. symmetry.
      apply (Href tid' p Hp). symmetry. done.
  - intros tid1 tid2 p1 p2 H1 H2 E.
    destruct (decide (tid = tid1)) as [<-|Hne1]; [rewrite lookup_delete_eq in H1; discriminate|].
    destruct (decide (tid = tid2)) as [<-|Hne2]; [rewrite lookup_delete_eq in H2; discriminate|].
    rewrite lookup_delete_ne in H1, H2 by done. eauto.
  - intros tid' r' Hm'. destruct (Wm _ _ Hm') as (t' & Ht' & Hid').
    destruct (decide (r = r')) as [<-|Hne].
    + eexists. rewrite lookup_insert_eq. split; [done|]. cbn. congruence.
    + exists t'. rewrite lookup_insert_ne; done.
  - intros r' t' tid' Ht' Hid' Hs'. destruct (decide (r = r')) as [<-|Hne].
    + rewrite lookup_insert_eq in Ht'. injection Ht' as <-. cbn in Hid'. congruence.
    + rewrite lookup_insert_ne in Ht' by done. exact (Wa _ _ _ Ht' Hid' Hs').
  - intros j p Hp. pose proof (Wj _ _ Hp) as Hj.
    destruct (decide (join_ref p = r)) as [E|Hne].
    + destruct p as [tid' r'|tid' r'|tid' r' v]; cbn in E, Hj; subst r';
        rewrite Ht in Hj.
      * destruct Hj as (t' & Ht' & Hid'). injection Ht' as <-.
        cbn. rewrite lookup_insert_eq. eexists. split; [done|]. done.
      * destruct Hj as (t' & Ht' & Hid' & Hs'). injection Ht' as <-. rewrite Hs in Hs'.
        destruct Hs'; discriminate.
      * destruct Hj as (t' & Ht' & Hid' & Hs' & _). injection Ht' as <-. congruence.
    + eapply joiner_ok_frame; [done| |destruct p; done].
      cbn. rewrite lookup_insert_ne; [done|]. intros E. apply Hne. symmetry. done.
  - intros r' t' Ht' Hs'. destruct (decide (r = r')) as [<-|Hne].
    + rewrite lookup_insert_eq in Ht'. injection Ht' as <-. done.
    + rewrite lookup_insert_ne in Ht' by done. eauto.
Qed.

Lemma Wf_join w j tid r :
  Wf w → joiners w !! j = None → threads_ w !! tid = Some r →
  Wf (with_joiners w (<[j := JWaiting tid r]> (joiners w))).
Proof.
  intros W Hj Hm. destruct W as [Wnd Wq Wv Wu Wm Wa Wj Wju Wr].
  constructor; cbn; try done.
  - intros j' p Hp. destruct (decide (j = j')) as [<-|Hne].
    + rewrite lookup_insert_eq in Hp. injection Hp as <-. cbn. eauto.
    + rewrite lookup_insert_ne in Hp by done. eauto.
  - intros j1 j2 tid1 tid2 r' v1 v2 H1 H2.
    destruct (decide (j = j1)) as [<-|Hne1];
      [rewrite lookup_insert_eq in H1; discriminate|].
    destruct (decide (j = j2)) as [<-|Hne2];
      [rewrite lookup_insert_eq in H2; discriminate|].
    rewrite lookup_insert_ne in H1, H2 by done. eauto.
Qed.

Lemma Wf_wake w j tid r t :
  Wf w → joiners w !! j = Some (JWaiting tid r) → heap w !! r = Some t →
  state_ t = DONE →
  Wf (with_joiners w (<[j := JDone tid r]> (joiners w))).
Proof.
  intros W Hj Ht Hs. destruct W as [Wnd Wq Wv Wu Wm Wa Wj Wju Wr].
  constructor; cbn; try done.
  - intros j' p Hp. destruct (decide (j = j')) as [<-|Hne].
    + rewrite lookup_insert_eq in Hp. injection Hp as <-. cbn.
      destruct (Wj _ _ Hj) as (t' & Ht' & Hid). rewrite Ht in Ht'. injection Ht' as <-.
      exists t. auto.
    + rewrite lookup_insert_ne in Hp by done. eauto.
  - intros j1 j2 tid1 tid2 r' v1 v2 H1 H2.
    destruct (decide (j = j1)) as [<-|Hne1];
      [rewrite lookup_insert_eq in H1; discriminate|].
    destruct (decide (j = j2)) as [<-|Hne2];
      [rewrite lookup_insert_eq in H2; discriminate|].
    rewrite lookup_insert_ne in H1, H2 by done. eauto.
Qed.

Lemma Wf_capture w j tid r t t' v :
  Wf w → joiners w !! j = Some (JDone tid r) → heap w !! r = Some t →
  UpdateThreadState t JOINED = Some t' → ret_ t' = Some v →
  Wf (with_joiners (with_heap w (<[r := t']> (heap w))) (<[j := JJoined tid r v]> (joiners w))).
Proof.
  intros W Hj Ht Hu Hv. destruct W as [Wnd Wq Wv Wu Wm Wa Wj Wju Wr].
  destruct (Wj _ _ Hj) as (t0 & Ht0 & Hid & _). rewrite Ht in Ht0. injection Ht0 as <-.
  unfold UpdateThreadState in Hu.
  destruct (decide (next_state (state_ t) = Some JOINED)) as [Hn|]; [|discriminate].
  injection Hu as <-.
  assert (Hs : state_ t = DONE) by (destruct (state_ t); cbn in Hn; congruence).
  assert (Hnot : ∀ r' t', heap w !! r' = Some t' → state_ t' ≠ DONE → r ≠ r').
  { intros r' t'' Ht'' Hs'' <-. congruence. }
  assert (Hmr : threads_ w !! tid = Some r) by (apply (Wa _ _ _ Ht Hid); auto).
  constructor; cbn; try done.
  - intros r' Hin. destruct (Wq r' Hin) as [(t' & Ht' & H1 & H2) H3].
    split; [|done]. exists t'. rewrite lookup_insert_ne; [done|].
    apply (Hnot r' t' Ht'). rewrite H1. discriminate.
  - intros tid' p Hp. pose proof (Wv _ _ Hp) as Hvo. eapply (vehicle_ok_frame w); [done| |done].
    cbn. rewrite lookup_insert_ne; [done|].
    destruct Hvo as (t' & Ht' & Hp'). apply (Hnot _ t' Ht').
    destruct p; destruct Hp' as (Hs' & _); rewrite Hs'; discriminate.
  - intros tid' r' Hm'. destruct (Wm _ _ Hm') as (t' & Ht' & Hid').
    destruct (decide (r = r')) as [<-|Hne].
    + eexists. rewrite lookup_insert_eq. split; [done|]. cbn. congruence.
    + exists t'. rewrite lookup_insert_ne; done.
  - intros r' t' tid' Ht' Hid' Hs'. destruct (decide (r = r')) as [<-|Hne].
    + rewrite lookup_insert_eq in Ht'. injection Ht' as <-. cbn in Hs'.
      destruct Hs'; discriminate.
    + rewrite lookup_insert_ne in Ht' by done. exact (Wa _ _ _ Ht' Hid' Hs').
  - intros j' p Hp. destruct (decide (j = j')) as [<-|Hne].
    + rewrite lookup_insert_eq in Hp. injection Hp as <-. cbn.
      eexists. rewrite lookup_insert_eq. split; [done|]. cbn. auto.
    + rewrite lookup_insert_ne in Hp by done. pose proof (Wj _ _ Hp) as Hjo.
      destruct (decide (join_ref p = r)) as [E|Hne'].
      * destruct p as [tid' r'|tid' r'|tid' r' v']; cbn in E, Hjo; subst r';
          rewrite Ht in Hjo; cbn; rewrite lookup_insert_eq.
        -- destruct Hjo as (t' & Ht' & Hid'). injection Ht' as <-.
           eexists. split; [done|]. done.
        -- destruct Hjo as (t' & Ht' & Hid' & _). injection Ht' as <-.
           eexists. split; [done|]. cbn. auto.
        -- destruct Hjo as (t' & Ht' & Hid' & Hs' & _). injection Ht' as <-. congruence.
      * eapply joiner_ok_frame; [done| |destruct p; done].
        cbn. rewrite lookup_insert_ne; [done|]. intros E. apply Hne'. symmetry. done.
  - intros j1 j2 tid1 tid2 r' v1 v2 H1 H2.
    assert (Hjj : ∀ j'' tid'' v'', j ≠ j'' → joiners w !! j'' = Some (JJoined tid'' r v'') → False).
    { intros j'' tid'' v'' Hne Hjr. destruct (Wj _ _ Hjr) as (t' & Ht' & _ & Hs' & _).
      rewrite Ht in Ht'. injection Ht' as <-. congruence. }
    destruct (decide (j = j1)) as [<-|Hne1], (decide (j = j2)) as [<-|Hne2].
    + done.
    + rewrite lookup_insert_eq in H1. rewrite lookup_insert_ne in H2 by done.
      injection H1 as -> -> ->. exfalso. eauto.
    + rewrite lookup_insert_eq in H2. rewrite lookup_insert_ne in H1 by done.
      injection H2 as -> -> ->. exfalso. eauto.
    + rewrite lookup_insert_ne in H1, H2 by done. eauto.
  - intros r' t' Ht' Hs'. destruct (decide (r = r')) as [<-|Hne].
    + rewrite lookup_insert_eq in Ht'. injection Ht' as <-. cbn.
      apply (Wr r t Ht). auto.
    + rewrite lookup_insert_ne in Ht' by done. eauto.
Qed.

Lemma Wf_joinret w j tid r v :
  Wf w → joiners w !! j = Some (JJoined tid r v) →
  Wf (with_joiners (with_threads w (delete tid (threads_ w))) (delete j (joiners w))).
Proof.
  intros W Hj. destruct W as [Wnd Wq Wv Wu Wm Wa Wj Wju Wr].
  destruct (Wj _ _ Hj) as (t & Ht & Hid & Hs & Hret & Hm).
  assert (Hno : ∀ tid' p, vehicles w !! tid' = Some p → tid' ≠ tid).
  { intros tid' p Hp ->. destruct (Wv _ _ Hp) as (t' & Ht' & Hp').
    destruct p as [r'|r'|r'|r']; cbn in Ht'; destruct Hp' as (Hs' & _ & Hm');
      try congruence;
      rewrite Hm in Hm'; injection Hm' as ->; rewrite Ht in Ht'; injection Ht' as <-;
      congruence. }
  constructor; cbn; try done.
  - intros tid' p Hp. eapply (vehicle_ok_frame w); [eauto|done|].
    cbn. rewrite lookup_delete_ne; [done|]. intros ->. exact (Hno _ _ Hp eq_refl).
  - intros tid' r' Hm'. destruct (decide (tid = tid')) as [<-|Hne].
    + rewrite lookup_delete_eq in Hm'. discriminate.
    + rewrite lookup_delete_ne in Hm' by done. eauto.
  - intros r' t' tid' Ht' Hid' Hs'. destruct (decide (tid = tid')) as [<-|Hne].
    + pose proof (Wa _ _ _ Ht' Hid' Hs') as Hm'. rewrite Hm in Hm'. injection Hm' as <-.
      rewrite Ht in Ht'. injection Ht' as <-. rewrite Hs in Hs'. destruct Hs'; discriminate.
    + rewrite lookup_delete_ne by done. exact (Wa _ _ _ Ht' Hid' Hs').
  - intros j' p Hp. destruct (decide (j = j')) as [<-|Hne].
    + rewrite lookup_delete_eq in Hp. discriminate.
    + rewrite lookup_delete_ne in Hp by done. pose proof (Wj _ _ Hp) as Hjo.
      eapply joiner_ok_frame; [done|done|].
      destruct p as [| |tid' r' v']; [done|done|]. cbn.
      destruct (decide (tid = tid')) as [<-|Hne'].
      * destruct Hjo as (t' & _ & _ & _ & _ & Hm'). rewrite Hm in Hm'. injection Hm' as <-.
        exfalso. apply Hne. eapply Wju; [exact Hj|exact Hp].
      * rewrite lookup_delete_ne; done.
  - intros j1 j2 tid1 tid2 r' v1 v2 H1 H2.
    destruct (decide (j = j1)) as [<-|Hne1]; [rewrite lookup_delete_eq in H1; discriminate|].
    destruct (decide (j = j2)) as [<-|Hne2]; [rewrite lookup_delete_eq in H2; discriminate|].
    rewrite lookup_delete_ne in H1, H2 by done. eauto.
Qed.

(** The transitions of [exec], one constructor per enabled case. *)
Inductive exec_spec (w : World) : Action -> Event -> Config -> Prop :=
  | es_create r f :
      heap w !! r = None ->
      exec_spec w (ACreate r f) (EvSubmit r f) (Live (CreateThread_enqueue w r f))
  | es_create_ret r t tid :
      r ∈ creators w -> heap w !! r = Some t -> state_ t ≠ QUEUED -> thread_id_ t = Some tid ->
      exec_spec w (ACreateRet r) (EvCreateRet r tid)
                (Live (with_creators w (creators w ∖ {[r]})))
  | es_start_abort tid :
      queued_threads_ w = [] -> exec_spec w (AStart tid) EvAbort Aborted
  | es_start tid r q :
      queued_threads_ w = r :: q -> vehicles w !! tid = None -> threads_ w !! tid = None ->
      exec_spec w (AStart tid) (EvClaim r tid)
        (Live (with_vehicles (with_queue w q) (<[tid := VPopped r]> (vehicles w))))
  | es_bind tid r t :
      vehicles w !! tid = Some (VPopped r) -> heap w !! r = Some t ->
      exec_spec w (ABind tid) EvTau
        (Live (with_vehicles (with_heap w (<[r := UpdateThreadId t tid]> (heap w)))
                             (<[tid := VBound r]> (vehicles w))))
  | es_insert tid r :
      vehicles w !! tid = Some (VBound r) ->
      exec_spec w (AInsert tid) EvTau
        (Live (with_vehicles (with_threads w (<[tid := r]> (threads_ w)))
                             (<[tid := VInserted r]> (vehicles w))))
  | es_runstart tid r t t' :
      vehicles w !! tid = Some (VInserted r) -> heap w !! r = Some t ->
      UpdateThreadState t RUNNING = Some t' ->
      exec_spec w (ARunStart tid) EvTau
        (Live (with_vehicles (with_heap w (<[r := t']> (heap w)))
                             (<[tid := VRunning r]> (vehicles w))))
  | es_runstart_abort tid r t :
      vehicles w !! tid = Some (VInserted r) -> heap w !! r = Some t ->
      UpdateThreadState t RUNNING = None ->
      exec_spec w (ARunStart tid) EvAbort Aborted
  | es_runfinish tid r t t' :
      vehicles w !! tid = Some (VRunning r) -> heap w !! r = Some t ->
      UpdateThreadState (set_ret t (start_routine_ t tt)) DONE = Some t' ->
      exec_spec w (ARunFinish tid) (EvInvoke r (start_routine_ t tt))
        (Live (with_vehicles (with_heap w (<[r := t']> (heap w))) (delete tid (vehicles w))))
  | es_runfinish_abort tid r t :
      vehicles w !! tid = Some (VRunning r) -> heap w !! r = Some t ->
      UpdateThreadState (set_ret t (start_routine_ t tt)) DONE = None ->
      exec_spec w (ARunFinish tid) EvAbort Aborted
  | es_join_fail j tid :
      joiners w !! j = None -> threads_ w !! tid = None ->
      exec_spec w (AJoin j tid) (EvJoinFail tid) (Live w)
  | es_join j tid r :
      joiners w !! j = None -> threads_ w !! tid = Some r ->
      exec_spec w (AJoin j tid) EvTau (Live (with_joiners w (<[j := JWaiting tid r]> (joiners w))))
  | es_wake j tid r t :
      joiners w !! j = Some (JWaiting tid r) -> heap w !! r = Some t -> state_ t = DONE ->
      exec_spec w (AJoinWake j) EvTau (Live (with_joiners w (<[j := JDone tid r]> (joiners w))))
  | es_capture j tid r t t' v :
      joiners w !! j = Some (JDone tid r) -> heap w !! r = Some t ->
      UpdateThreadState t JOINED = Some t' -> ret_ t' = Some v ->
      exec_spec w (AJoinCapture j) EvTau
        (Live (with_joiners (with_heap w (<[r := t']> (heap w)))
                            (<[j := JJoined tid r v]> (joiners w))))
  | es_capture_abort j tid r t :
      joiners w !! j = Some (JDone tid r) -> heap w !! r = Some t ->
      UpdateThreadState t JOINED = None ->
      exec_spec w (AJoinCapture j) EvAbort Aborted
  | es_joinret j tid r v :
      joiners w !! j = Some (JJoined tid r v) ->
      exec_spec w (AJoinRet j) (EvJoinRet tid r v)
        (Live (with_joiners (with_threads w (delete tid (threads_ w))) (delete j (joiners w)))).

Lemma exec_inv w a e c' : exec (Live w) a = Some (e, c') -> exec_spec w a e c'.
Proof.
  intros H. destruct a; cbn in H.
  - destruct (heap w !! r) eqn:Hr; [discriminate|]. injection H as <- <-. constructor; done.
  - unfold CreateThread_return in H.
    destruct (decide (r ∈ creators w)); [|discriminate].
    destruct (heap w !! r) as [t|] eqn:Ht; [|discriminate].
    destruct (decide (state_ t = QUEUED)); [discriminate|].
    destruct (thread_id_ t) as [tid|] eqn:Hid; [|discriminate].
    injection H as <- <-. econstructor; eauto.
  - unfold StartThread_pop in H. destruct (queued_threads_ w) as [|r q] eqn:Hq.
    + injection H as <- <-. constructor; done.
    + destruct (vehicles w !! tid) eqn:Hv; [discriminate|].
      destruct (threads_ w !! tid) eqn:Hm; [discriminate|].
      injection H as <- <-. constructor; done.
  - unfold StartThread_step in H. destruct (vehicles w !! tid) as [[r|r|r|r]|] eqn:Hv;
      try discriminate.
    destruct (heap w !! r) as [t|] eqn:Ht; [|discriminate].
    injection H as <- <-. econstructor; eauto.
  - unfold StartThread_step in H. destruct (vehicles w !! tid) as [[r|r|r|r]|] eqn:Hv;
      try discriminate.
    injection H as <- <-. econstructor; eauto.
  - unfold StartThread_step in H. destruct (vehicles w !! tid) as [[r|r|r|r]|] eqn:Hv;
      try discriminate.
    destruct (heap w !! r) as [t|] eqn:Ht; [|discriminate].
    destruct (UpdateThreadState t RUNNING) eqn:Hu; injection H as <- <-.
    + eapply es_runstart; eauto.
    + eapply es_runstart_abort; eauto.
  - unfold StartThread_step in H. destruct (vehicles w !! tid) as [[r|r|r|r]|] eqn:Hv;
      try discriminate.
    destruct (heap w !! r) as [t|] eqn:Ht; [|discriminate].
    destruct (UpdateThreadState (set_ret t (start_routine_ t tt)) DONE) eqn:Hu;
      injection H as <- <-.
    + eapply es_runfinish; eauto.
    + eapply es_runfinish_abort; eauto.
  - destruct (joiners w !! j) eqn:Hj; [discriminate|].
    unfold JoinThread_lookup in H. destruct (threads_ w !! tid) eqn:Hm;
      injection H as <- <-; econstructor; eauto.
  - unfold JoinThread_step in H. destruct (joiners w !! j) as [[tid r|tid r|tid r v]|] eqn:Hj;
      try discriminate.
    destruct (heap w !! r) as [t|] eqn:Ht; [|discriminate].
    destruct (decide (state_ t = DONE)); [|discriminate].
    injection H as <- <-. econstructor; eauto.
  - unfold JoinThread_step in H. destruct (joiners w !! j) as [[tid r|tid r|tid r v]|] eqn:Hj;
      try discriminate.
    destruct (heap w !! r) as [t|] eqn:Ht; [|discriminate].
    destruct (UpdateThreadState t JOINED) as [t'|] eqn:Hu.
    + destruct (ret_ t') eqn:Hr; [|discriminate]. injection H as <- <-. econstructor; eauto.
    + injection H as <- <-. eapply es_capture_abort; eauto.
  - unfold JoinThread_step in H. destruct (joiners w !! j) as [[tid r|tid r|tid r v]|] eqn:Hj;
      try discriminate.
    injection H as <- <-. econstructor; eauto.
Qed.

Lemma Wf_exec w a e w' : Wf w -> exec (Live w) a = Some (e, Live w') -> Wf w'.
Proof.
  intros W H. apply exec_inv in H. inversion H; subst.
  - apply Wf_create; done.
  - apply Wf_creators; done.
  - eapply Wf_pop; eauto.
  - eapply Wf_bind; eauto.
  - eapply Wf_insert; eauto.
  - eapply Wf_runstart; eauto.
  - eapply Wf_runfinish; eauto.
  - done.
  - eapply Wf_join; eauto.
  - eapply Wf_wake; eauto.
  - eapply Wf_capture; eauto.
  - eapply Wf_joinret; eauto.
Qed.

Lemma submits_app tr1 tr2 : submits (tr1 ++ tr2) = submits tr1 ++ submits tr2.
Proof. induction tr1 as [|[] tr1 IH]; cbn; rewrite ?IH; done. Qed.

Lemma claims_app tr1 tr2 : claims (tr1 ++ tr2) = claims tr1 ++ claims tr2.
Proof. induction tr1 as [|[] tr1 IH]; cbn; rewrite ?IH; done. Qed.

Lemma invoke_count_app r tr1 tr2 :
  invoke_count r (tr1 ++ tr2) = invoke_count r tr1 + invoke_count r tr2.
Proof. induction tr1 as [|[] tr1 IH]; cbn; rewrite ?IH; lia. Qed.

Lemma in_snoc {A} (x e : A) tr : In x (tr ++ [e]) ↔ In x tr ∨ x = e.
Proof. rewrite in_app_iff. cbn. intuition. Qed.

Lemma claimed_since_snoc tr r tid e :
  claimed_since tr r tid → (∀ r' v, e ≠ EvJoinRet tid r' v) → claimed_since (tr ++ [e]) r tid.
Proof.
  intros (tr1 & tr2 & -> & Hn) He. exists tr1, (tr2 ++ [e]). split.
  - rewrite <- app_assoc. done.
  - intros r' v Hi. apply in_snoc in Hi as [Hi|Hi]; [exact (Hn _ _ Hi)|exact (He _ _ (eq_sym Hi))].
Qed.

Lemma claimed_since_in tr r tid : claimed_since tr r tid → In (EvClaim r tid) tr.
Proof. intros (tr1 & tr2 & -> & _). apply in_app_iff. right. left. done. Qed.

(** Two occurrences in one list: the second one is after the first. *)
Lemma app_cons_cases {A} (tr1 tr2 tr1' tr2' : list A) (a b : A) :
  tr1 ++ a :: tr2 = tr1' ++ b :: tr2' → a ≠ b → In b tr2 ∨ In a tr2'.
Proof.
  revert tr1'. induction tr1 as [|x tr1 IH]; intros [|y tr1'] E Hab; cbn in E.
  - injection E as -> _. done.
  - injection E as -> E. left. rewrite E. apply in_app_iff. right. left. done.
  - injection E as -> E. right. rewrite <- E. apply in_app_iff. right. left. done.
  - injection E as -> E. exact (IH _ E Hab).
Qed.

Lemma UpdateThreadState_inv t s t' :
  UpdateThreadState t s = Some t' → t' = set_state t s ∧ next_state (state_ t) = Some s.
Proof.
  unfold UpdateThreadState. destruct (decide _) as [E|]; [|discriminate].
  intros [= <-]. done.
Qed.

Lemma UpdateThreadState_None t s :
  UpdateThreadState t s = None ↔ next_state (state_ t) ≠ Some s.
Proof. unfold UpdateThreadState. destruct (decide _); split; done. Qed.

Ltac upd_inv :=
  match goal with
  | H : UpdateThreadState _ _ = Some _ |- _ => apply UpdateThreadState_inv in H as [-> ?Hn]
  end.

(** What a step does to one object of the heap, read backwards. *)
Lemma exec_heap_bwd w a e w' r t' :
  exec_spec w a e (Live w') → heap w' !! r = Some t' →
  (heap w !! r = None ∧ e = EvSubmit r (start_routine_ t') ∧ state_ t' = QUEUED ∧
   thread_id_ t' = None) ∨
  ∃ t, heap w !! r = Some t ∧ start_routine_ t' = start_routine_ t ∧
    (state_ t' = state_ t ∨ next_state (state_ t) = Some (state_ t')) ∧
    (thread_id_ t' = thread_id_ t ∨
     ∃ tid, thread_id_ t' = Some tid ∧ vehicles w !! tid = Some (VPopped r)) ∧
    ((done_count (Some t') = done_count (Some t) ∧ ∀ v, e ≠ EvInvoke r v) ∨
     (e = EvInvoke r (start_routine_ t tt) ∧ done_count (Some t') = 1 ∧
      done_count (Some t) = 0)).
Proof.
  intros Hs Hl.
  assert (Keep : heap w !! r = Some t' → (∀ v, e ≠ EvInvoke r v) →
    ∃ t, heap w !! r = Some t ∧ start_routine_ t' = start_routine_ t ∧
    (state_ t' = state_ t ∨ next_state (state_ t) = Some (state_ t')) ∧
    (thread_id_ t' = thread_id_ t ∨
     ∃ tid, thread_id_ t' = Some tid ∧ vehicles w !! tid = Some (VPopped r)) ∧
    ((done_count (Some t') = done_count (Some t) ∧ ∀ v, e ≠ EvInvoke r v) ∨
     (e = EvInvoke r (start_routine_ t tt) ∧ done_count (Some t') = 1 ∧
      done_count (Some t) = 0))).
  { intros H He. exists t'. split; [done|]. split; [done|]. split; [left; done|].
    split; [left; done|]. left. done. }
  inversion Hs; subst; cbn in Hl;
    try (right; apply Keep; [done|intros ?v ?Ev; discriminate]).
  - (* create *)
    destruct (decide (r0 = r)) as [<-|Hne].
    + rewrite lookup_insert_eq in Hl. injection Hl as <-. left. done.
    + rewrite lookup_insert_ne in Hl by done. right. apply Keep; [done|].
      intros v Ev. discriminate.
  - (* bind *)
    destruct (decide (r0 = r)) as [<-|Hne].
    + rewrite lookup_insert_eq in Hl. injection Hl as <-. right. exists t.
      split; [done|]. split; [done|]. split; [left; done|].
      split; [right; eexists; split; [reflexivity|done]|].
      left. split; [done|]. intros v Ev. discriminate.
    + rewrite lookup_insert_ne in Hl by done. right. apply Keep; [done|].
      intros v Ev. discriminate.
  - (* run start *)
    destruct (decide (r0 = r)) as [<-|Hne].
    + rewrite lookup_insert_eq in Hl. injection Hl as <-. upd_inv. right. exists t.
      split; [done|]. split; [done|]. split; [right; done|]. split; [left; done|].
      left. split; [|intros v Ev; discriminate].
      cbn in Hn |- *. destruct (state_ t); cbn in Hn; congruence.
    + rewrite lookup_insert_ne in Hl by done. right. apply Keep; [done|].
      intros v Ev. discriminate.
  - (* run finish *)
    destruct (decide (r0 = r)) as [<-|Hne].
    + rewrite lookup_insert_eq in Hl. injection Hl as <-. upd_inv. right. exists t.
      split; [done|]. split; [done|]. split; [right; done|]. split; [left; done|].
      right. cbn in Hn |- *. destruct (state_ t); cbn in Hn; try discriminate.
      split; [done|]. split; done.
    + rewrite lookup_insert_ne in Hl by done. right. apply Keep; [done|].
      intros v Ev. injection Ev as E _. congruence.
  - (* capture *)
    destruct (decide (r0 = r)) as [<-|Hne].
    + rewrite lookup_insert_eq in Hl. injection Hl as <-. upd_inv. right. exists t.
      split; [done|]. split; [done|]. split; [right; done|]. split; [left; done|].
      left. split; [|intros v' Ev; discriminate].
      cbn in Hn |- *. destruct (state_ t); cbn in Hn; congruence.
    + rewrite lookup_insert_ne in Hl by done. right. apply Keep; [done|].
      intros v' Ev. discriminate.
Qed.

(** The heap only grows. *)
Lemma exec_heap_some w a e w' r :
  exec_spec w a e (Live w') → is_Some (heap w !! r) → is_Some (heap w' !! r).
Proof.
  intros Hs Hr. inversion Hs; subst; cbn; try done;
    (destruct (decide (r0 = r)) as [<-|Hne];
     [rewrite lookup_insert_eq; eauto | rewrite lookup_insert_ne by done; done]).
Qed.

(** The same step read forwards, in a well-formed world: an object keeps
    its routine and its identity, and never goes back to QUEUED. *)
Lemma exec_heap_fwd w a e w' r t :
  Wf w → exec_spec w a e (Live w') → heap w !! r = Some t →
  ∃ t', heap w' !! r = Some t' ∧ start_routine_ t' = start_routine_ t ∧
    (∀ tid, thread_id_ t = Some tid → thread_id_ t' = Some tid) ∧
    (state_ t ≠ QUEUED → state_ t' ≠ QUEUED).
Proof.
  intros W Hs Ht. destruct (exec_heap_some _ _ _ _ r Hs) as [t' Ht']; [eauto|].
  exists t'. split; [done|].
  destruct (exec_heap_bwd _ _ _ _ _ _ Hs Ht') as [(Hn & _)|(t0 & Ht0 & Hr & Hst & Hid & _)];
    [congruence|].
  rewrite Ht in Ht0. injection Ht0 as <-. split; [done|]. split.
  - intros tid Htid. destruct Hid as [->|(tid' & _ & Hv)]; [done|].
    destruct (wf_vehicle _ W _ _ Hv) as (t1 & Ht1 & _ & Hn1 & _). cbn in Ht1.
    rewrite Ht in Ht1. injection Ht1 as <-. congruence.
  - intros Hq. destruct Hst as [->|Hst]; [done|].
    destruct (state_ t), (state_ t'); cbn in Hst; congruence.
Qed.

Lemma joined_no_vehicle w j tid r v :
  Wf w → joiners w !! j = Some (JJoined tid r v) → vehicles w !! tid = None.
Proof.
  intros W Hj. destruct (wf_joiner _ W _ _ Hj) as (t & Ht & Hid & Hs & Hret & Hm).
  destruct (vehicles w !! tid) as [p|] eqn:Hp; [|done]. exfalso.
  destruct (wf_vehicle _ W _ _ Hp) as (t' & Ht' & Hp').
  destruct p as [r'|r'|r'|r']; cbn in Ht'; destruct Hp' as (Hs' & _ & Hm');
    try congruence;
    rewrite Hm in Hm'; injection Hm' as ->; rewrite Ht in Ht'; injection Ht' as <-;
    congruence.
Qed.

(** A completed join is the [AJoinRet] of a joiner holding [JJoined]. *)
Lemma exec_joinret w a e c' tid r v :
  exec_spec w a e c' → e = EvJoinRet tid r v →
  ∃ j, joiners w !! j = Some (JJoined tid r v) ∧
    c' = Live (with_joiners (with_threads w (delete tid (threads_ w))) (delete j (joiners w))).
Proof. intros Hs ->. inversion Hs; subst. eauto. Qed.

Lemma exec_vehicle_bwd w a e w' tid p :
  exec_spec w a e (Live w') → vehicles w' !! tid = Some p →
  (∃ p0, vehicles w !! tid = Some p0 ∧ vehicle_ref p0 = vehicle_ref p) ∨
  e = EvClaim (vehicle_ref p) tid.
Proof.
  intros Hs Hp. inversion Hs; subst; cbn in Hp; try (left; eauto; done);
    destruct (decide (tid0 = tid)) as [<-|Hne];
    try (rewrite lookup_insert_eq in Hp; injection Hp as <-);
    try (rewrite lookup_insert_ne in Hp by done; left; eauto; done).
  - right. done.
  - left. eauto.
  - left. eauto.
  - left. eauto.
  - rewrite lookup_delete_eq in Hp. discriminate.
  - rewrite lookup_delete_ne in Hp by done. left. eauto.
Qed.

Lemma exec_threads_bwd w a e w' tid r :
  exec_spec w a e (Live w') → threads_ w' !! tid = Some r →
  (threads_ w !! tid = Some r ∧ ∀ r' v, e ≠ EvJoinRet tid r' v) ∨
  vehicles w !! tid = Some (VBound r).
Proof.
  intros Hs Hm. inversion Hs; subst; cbn in Hm;
    try (left; split; [done|intros ?r' ?v ?E; discriminate]).
  - destruct (decide (tid0 = tid)) as [<-|Hne].
    + rewrite lookup_insert_eq in Hm. injection Hm as <-. right. done.
    + rewrite lookup_insert_ne in Hm by done. left. split; [done|].
      intros r' v E. discriminate.
  - destruct (decide (tid0 = tid)) as [<-|Hne].
    + rewrite lookup_delete_eq in Hm. discriminate.
    + rewrite lookup_delete_ne in Hm by done. left. split; [done|].
      intros r' v' E. injection E as E _ _. congruence.
Qed.

Lemma exec_invoke w a e w' r v :
  exec_spec w a e (Live w') → e = EvInvoke r v → is_Some (heap w' !! r).
Proof. intros Hs ->. inversion Hs; subst. cbn. rewrite lookup_insert_eq. eauto. Qed.

Lemma invoke_count_other r e : (∀ v, e ≠ EvInvoke r v) → invoke_count r [e] = 0.
Proof.
  intros He. destruct e; cbn; try done.
  destruct (decide (r0 = r)) as [->|]; [|done]. exfalso. exact (He v eq_refl).
Qed.

Lemma invoke_count_one r v : invoke_count r [EvInvoke r v] = 1.
Proof. cbn. destruct (decide (r = r)); done. Qed.

Lemma Tr_init : Tr init [].
Proof. constructor; cbn; intros *; rewrite ?lookup_empty; done. Qed.

Lemma Tr_exec w tr a e w' :
  Wf w → Tr w tr → exec_spec w a e (Live w') → Tr w' (tr ++ [e]).
Proof.
  intros W T Hs. destruct T as [Tf Ts Tsh Tc Tv Tm Tcr Tj Ti].
  (* the new event completes no join on an identity still in use *)
  assert (Hfresh : ∀ tid r' v, e = EvJoinRet tid r' v → vehicles w !! tid = None ∧
            threads_ w' !! tid = None).
  { intros tid r' v E. destruct (exec_joinret _ _ _ _ _ _ _ Hs E) as (j & Hj & Hw).
    injection Hw as ->. split; [exact (joined_no_vehicle _ _ _ _ _ W Hj)|].
    cbn. apply lookup_delete_eq. }
  constructor.
  - rewrite submits_app, claims_app, Tf.
    inversion Hs; subst; cbn; rewrite ?app_nil_r; try done.
    + rewrite <- app_assoc. done.
    + match goal with H : queued_threads_ w = _ |- _ => rewrite H end.
      rewrite <- app_assoc. done.
  - intros r t' Ht'. apply in_snoc.
    destruct (exec_heap_bwd _ _ _ _ _ _ Hs Ht') as [(_ & -> & _)|(t & Ht & Hr & _)].
    + right. done.
    + left. rewrite Hr. exact (Ts _ _ Ht).
  - intros r f Hi. apply in_snoc in Hi as [Hi|Hi].
    + destruct (Tsh _ _ Hi) as (t & Ht & <-).
      destruct (exec_heap_fwd _ _ _ _ _ _ W Hs Ht) as (t' & Ht' & Hr & _). eauto.
    + subst e. inversion Hs; subst. cbn. rewrite lookup_insert_eq. eexists. split; done.
  - intros r t' tid Ht' Hid. apply in_snoc. left.
    destruct (exec_heap_bwd _ _ _ _ _ _ Hs Ht') as
      [(_ & _ & _ & Hn)|(t & Ht & _ & _ & [E|(tid' & Hid' & Hv)] & _)]; [congruence| |].
    + rewrite E in Hid. exact (Tc _ _ _ Ht Hid).
    + rewrite Hid in Hid'. injection Hid' as <-. exact (claimed_since_in _ _ _ (Tv _ _ Hv)).
  - intros tid p Hp.
    destruct (exec_vehicle_bwd _ _ _ _ _ _ Hs Hp) as [(p0 & Hp0 & Er)|E].
    + rewrite <- Er. apply claimed_since_snoc; [exact (Tv _ _ Hp0)|].
      intros r' v E. destruct (Hfresh _ _ _ E) as [Hn _]. congruence.
    + subst e. exists tr, []. split; [done|]. intros r' v []. 
  - intros tid r Hm.
    destruct (exec_threads_bwd _ _ _ _ _ _ Hs Hm) as [[Hm0 He]|Hv].
    + apply claimed_since_snoc; [exact (Tm _ _ Hm0)|]. intros r' v E. exact (He r' v E).
    + apply claimed_since_snoc; [exact (Tv _ _ Hv)|].
      intros r' v E. destruct (Hfresh _ _ _ E) as [Hn _]. congruence.
  - intros r tid Hi. apply in_snoc in Hi as [Hi|Hi].
    + destruct (Tcr _ _ Hi) as (t & Ht & Hid & Hq).
      destruct (exec_heap_fwd _ _ _ _ _ _ W Hs Ht) as (t' & Ht' & _ & Hid' & Hq').
      exists t'. split; [done|]. split; [exact (Hid' _ Hid)|exact (Hq' Hq)].
    + subst e. inversion Hs; subst. cbn. eauto.
  - intros tid r v Hi. apply in_snoc in Hi as [Hi|Hi].
    + destruct (Tj _ _ _ Hi) as (t & Ht & Hid & ->).
      destruct (exec_heap_fwd _ _ _ _ _ _ W Hs Ht) as (t' & Ht' & Hr & Hid' & _).
      exists t'. rewrite Hr. eauto.
    + symmetry in Hi. destruct (exec_joinret _ _ _ _ _ _ _ Hs Hi) as (j & Hj & Hw).
      injection Hw as ->. cbn.
      destruct (wf_joiner _ W _ _ Hj) as (t & Ht & Hid & Hst & Hret & _).
      rewrite (wf_ret _ W _ _ Ht (or_intror Hst)) in Hret. injection Hret as <-. eauto.
  - intros r. rewrite invoke_count_app, Ti.
    destruct (heap w' !! r) as [t'|] eqn:Ht'.
    + destruct (exec_heap_bwd _ _ _ _ _ _ Hs Ht') as
        [(Hn & -> & Hq & _)|(t & Ht & _ & _ & _ & [[Hd He]|(-> & Hd1 & Hd0)])].
      * rewrite Hn, invoke_count_other by (intros v E; discriminate).
        cbn. rewrite Hq. done.
      * rewrite Ht, invoke_count_other by exact He. rewrite Hd. lia.
      * rewrite Ht, invoke_count_one, Hd1, Hd0. done.
    + destruct (heap w !! r) eqn:Ht.
      * destruct (exec_heap_some _ _ _ _ r Hs) as [? E]; [eauto|congruence].
      * rewrite invoke_count_other; [done|]. intros v E.
        destruct (exec_invoke _ _ _ _ _ _ Hs E) as [? E']. congruence.
Qed.

(** Every reachable live world is well formed and agrees with its trace. *)
Lemma reach_live w tr : reach (Live w) tr → Wf w ∧ Tr w tr.
Proof.
  remember (Live w) as c eqn:Ec. intros H. revert w Ec.
  induction H as [|c tr a e c' H IH Hx]; intros w' Ec.
  - injection Ec as <-. split; [exact Wf_init|exact Tr_init].
  - subst c'. destruct c as [w|]; [|discriminate].
    destruct (IH w eq_refl) as [W T]. split; [exact (Wf_exec _ _ _ _ W Hx)|].
    exact (Tr_exec _ _ _ _ _ W T (exec_inv _ _ _ _ Hx)).
Qed.

Lemma reach_aborted tr : reach Aborted tr →
  ∃ w tr0, reach (Live w) tr0 ∧ tr = tr0 ++ [EvAbort].
Proof.
  intros H. inversion H as [|c tr0 a e c' H0 Hx]; subst.
  destruct c as [w|]; [|discriminate]. apply exec_inv in Hx.
  exists w, tr0. split; [done|]. inversion Hx; subst; done.
Qed.

Lemma run_reach c tr acts c' tr' :
  reach c tr → run c tr acts = Some (c', tr') → reach c' tr'.
Proof.
  revert c tr. induction acts as [|a acts IH]; intros c tr Hr E; cbn in E.
  - injection E as <- <-. done.
  - destruct (exec c a) as [[e c1]|] eqn:Hx; [|discriminate].
    exact (IH _ _ (reach_step _ _ _ _ _ Hr Hx) E).
Qed.

Lemma live_ok_reach acts : live_ok acts = true → reach (Live (world_of acts)) (trace_of acts).
Proof.
  unfold live_ok, world_of, trace_of. destruct (run (Live init) [] acts) as [[[w|] tr]|] eqn:E;
    try discriminate. intros _. exact (run_reach _ _ _ _ _ reach_init E).
Qed.

(** Every trace is a trace of a live world, possibly followed by the abort. *)
Lemma reach_live_prefix c tr : reach c tr →
  ∃ w tr0, reach (Live w) tr0 ∧ (tr = tr0 ∨ tr = tr0 ++ [EvAbort]).
Proof.
  intros H. destruct c as [w|].
  - exists w, tr. split; [done|]. left. done.
  - destruct (reach_aborted _ H) as (w & tr0 & H0 & ->). exists w, tr0. split; [done|]. right. done.
Qed.

Lemma reach_fifo c tr : reach c tr → ∃ pending, submits tr = claims tr ++ pending.
Proof.
  intros H. destruct (reach_live_prefix _ _ H) as (w & tr0 & H0 & E).
  destruct (reach_live _ _ H0) as [_ T]. exists (queued_threads_ w).
  destruct E as [->| ->]; [exact (tr_fifo _ _ T)|].
  rewrite submits_app, claims_app, (tr_fifo _ _ T). cbn. rewrite !app_nil_r. done.
Qed.

Lemma reach_event c tr x : reach c tr → In x tr → x ≠ EvAbort →
  ∃ w tr0, reach (Live w) tr0 ∧ In x tr0 ∧ ∀ y, In y tr0 → In y tr.
Proof.
  intros H Hx Hn. destruct (reach_live_prefix _ _ H) as (w & tr0 & H0 & [->| ->]).
  - exists w, tr0. eauto.
  - exists w, tr0. split; [done|]. split.
    + apply in_snoc in Hx as [Hx|Hx]; [done|congruence].
    + intros y Hy. apply in_snoc. left. done.
Qed.

(** C1. FIFO hand-off: in every interleaving of [CreateThread] and
    [StartThread] calls, whatever the donated threads' identities and
    order of arrival, the N-th Thread popped by [StartThread] is the N-th
    Thread queued by [CreateThread]. *)
Theorem StartThread_fifo c tr n r :
  reach c tr → nth_error (claims tr) n = Some r → nth_error (submits tr) n = Some r.
Proof.
  intros H Hn. destruct (reach_fifo _ _ H) as [q ->].
  rewrite nth_error_app1; [done|]. apply nth_error_Some. congruence.
Qed.

Lemma StartThread_fifo_witness :
  nth_error (claims (trace_of sched_fifo)) 1 = Some 1 ∧
  nth_error (submits (trace_of sched_fifo)) 1 = Some 1.
Proof.
  split; [vm_compute; reflexivity|].
  apply (StartThread_fifo (Live (world_of sched_fifo)) (trace_of sched_fifo) 1 1).
  - apply live_ok_reach. vm_compute. reflexivity.
  - vm_compute. reflexivity.
Defined.

(** C2 (as the model has it). When [CreateThread] returns [tid] for its
    Thread [r], [r] was claimed and bound to [tid] by a donated thread
    and has left QUEUED; it is in [threads_] under [tid] unless a join
    has already moved it to JOINED. *)
Theorem CreateThread_returns_bound w tr r tid w' :
  reach (Live w) tr →
  exec (Live w) (ACreateRet r) = Some (EvCreateRet r tid, Live w') →
  In (EvClaim r tid) tr ∧
  ∃ t, heap w' !! r = Some t ∧ thread_id_ t = Some tid ∧ state_ t ≠ QUEUED ∧
       (state_ t ≠ JOINED → threads_ w' !! tid = Some r).
Proof.
  intros H Hx. destruct (reach_live _ _ H) as [W T]. apply exec_inv in Hx.
  inversion Hx as [| ? t ? Hc Ht Hq Hid | | | | | | | | | | | | | | ]; subst. cbn.
  split; [exact (tr_claimed _ _ T _ _ _ Ht Hid)|].
  exists t. split; [done|]. split; [done|]. split; [done|].
  intros Hj. apply (wf_active _ W _ _ _ Ht Hid). destruct (state_ t); auto; done.
Qed.

Lemma CreateThread_returns_bound_witness :
  In (EvClaim 0 7) (trace_of (sched_run (fun _ => 42%Z))) ∧
  ∃ t, heap (world_of (sched_run (fun _ => 42%Z) ++ [ACreateRet 0])) !! 0 = Some t ∧
       thread_id_ t = Some 7 ∧ state_ t ≠ QUEUED ∧
       (state_ t ≠ JOINED →
        threads_ (world_of (sched_run (fun _ => 42%Z) ++ [ACreateRet 0])) !! 7 = Some 0).
Proof.
  apply (CreateThread_returns_bound (world_of (sched_run (fun _ => 42%Z)))).
  - apply live_ok_reach. vm_compute. reflexivity.
  - vm_compute. reflexivity.
Defined.

(** C2 as stated fails: the routine of Thread 0 runs to completion and
    donated thread 7's identity is joined (the routine can hand out
    [pthread_self()]) before [CreateThread] returns 7; at that return 7 is
    no longer in [threads_] and Thread 0 is JOINED. *)
Lemma CreateThread_returns_active_counterexample :
  ¬ (∀ w tr r tid w', reach (Live w) tr →
       exec (Live w) (ACreateRet r) = Some (EvCreateRet r tid, Live w') →
       ∃ t, heap w' !! r = Some t ∧ thread_id_ t = Some tid ∧ state_ t ≠ QUEUED ∧
            threads_ w' !! tid = Some r).
Proof.
  intros H.
  destruct (H (world_of (sched_joined (fun _ => 42%Z))) (trace_of (sched_joined (fun _ => 42%Z)))
              0 7 (world_of (sched_joined (fun _ => 42%Z) ++ [ACreateRet 0])))
    as (t & _ & _ & _ & Hm).
  - apply live_ok_reach. vm_compute. reflexivity.
  - vm_compute. reflexivity.
  - vm_compute in Hm. discriminate.
Qed.

Lemma abort_suffix_in tr tr0 x :
  (tr = tr0 ∨ tr = tr0 ++ [EvAbort]) → x ≠ EvAbort → (In x tr ↔ In x tr0).
Proof.
  intros [->| ->] Hx; [done|]. rewrite in_snoc. split; [intros [H|H]; [done|congruence]|auto].
Qed.

(** C3. Whenever [JoinThread(tid)] completes with Thread [r] and value
    [v], [r] was claimed on [tid], and [v] is exactly what the routine
    submitted with [r] returns (there is one such routine), whatever the
    value: a failure code such as -1 is returned like any other. *)
Theorem JoinThread_returns_routine_value c tr tid r v :
  reach c tr → In (EvJoinRet tid r v) tr →
  In (EvClaim r tid) tr ∧
  ∃ f, In (EvSubmit r f) tr ∧ v = f tt ∧ ∀ f', In (EvSubmit r f') tr → f' = f.
Proof.
  intros H Hi. destruct (reach_live_prefix _ _ H) as (w & tr0 & H0 & E).
  destruct (reach_live _ _ H0) as [W T].
  rewrite (abort_suffix_in _ _ _ E) in Hi by done.
  destruct (tr_joinret _ _ T _ _ _ Hi) as (t & Ht & Hid & ->).
  rewrite (abort_suffix_in _ _ _ E) by done.
  split; [exact (tr_claimed _ _ T _ _ _ Ht Hid)|].
  exists (start_routine_ t). rewrite (abort_suffix_in _ _ _ E) by done.
  split; [exact (tr_submit _ _ T _ _ Ht)|]. split; [done|].
  intros f' Hf'. rewrite (abort_suffix_in _ _ _ E) in Hf' by done.
  destruct (tr_submit_heap _ _ T _ _ Hf') as (t' & Ht' & <-). congruence.
Qed.

Lemma JoinThread_returns_routine_value_witness :
  In (EvJoinRet 7 0 (-1)%Z) (trace_of (sched_joined (fun _ => (-1)%Z))) ∧
  In (EvClaim 0 7) (trace_of (sched_joined (fun _ => (-1)%Z))) ∧
  ∃ f, In (EvSubmit 0 f) (trace_of (sched_joined (fun _ => (-1)%Z))) ∧ (-1)%Z = f tt ∧
       ∀ f', In (EvSubmit 0 f') (trace_of (sched_joined (fun _ => (-1)%Z))) → f' = f.
Proof.
  assert (Hi : In (EvJoinRet 7 0 (-1)%Z) (trace_of (sched_joined (fun _ => (-1)%Z)))).
  { vm_compute. repeat (first [left; reflexivity | right]). }
  split; [exact Hi|].
  apply (JoinThread_returns_routine_value (Live (world_of (sched_joined (fun _ => (-1)%Z))))).
  - apply live_ok_reach. vm_compute. reflexivity.
  - exact Hi.
Defined.

Lemma not_reclaimed tr tid : (∀ r v, ¬ In (EvJoinRet tid r v) tr) → ¬ reclaimed tr tid.
Proof.
  intros Hn (tr1 & r & v & tr2 & -> & _). apply (Hn r v). apply in_app_iff. right. left. done.
Qed.

Ltac no_event :=
  let H := fresh in
  intros H; vm_compute in H;
  repeat match goal with Hd : _ ∨ _ |- _ => destruct Hd as [Hd|Hd] end;
  try discriminate; contradiction.

(** C4 (as the model has it). [JoinThread(tid)] fails with the
    no-such-thread error exactly when [tid] is not in [threads_] at its
    lookup, and then at once, changing nothing. An identity returned by
    [CreateThread] whose Thread is not yet JOINED is in [threads_]; after
    a completed join of [tid], [tid] stays out of [threads_] until a
    donated thread with that identity claims a Thread again. *)
Theorem JoinThread_no_such_identity w tr tid :
  reach (Live w) tr →
  (∀ j e c', exec (Live w) (AJoin j tid) = Some (e, c') →
     (e = EvJoinFail tid ↔ threads_ w !! tid = None) ∧ (e = EvJoinFail tid → c' = Live w)) ∧
  (∀ r t, In (EvCreateRet r tid) tr → heap w !! r = Some t → state_ t ≠ JOINED →
     threads_ w !! tid = Some r) ∧
  (reclaimed tr tid → threads_ w !! tid = None).
Proof.
  intros H. destruct (reach_live _ _ H) as [W T]. split; [|split].
  - intros j e c' Hx. apply exec_inv in Hx.
    inversion Hx as [| | | | | | | | | | ? ? ? Hm | ? ? r ? Hm | | | | ]; subst.
    + split; [split; done|done].
    + rewrite Hm. split; [split; discriminate|discriminate].
  - intros r t Hi Ht Hj. destruct (tr_createret _ _ T _ _ Hi) as (t0 & Ht0 & Hid & Hq).
    rewrite Ht in Ht0. injection Ht0 as <-. apply (wf_active _ W _ _ _ Ht Hid).
    destruct (state_ t); auto; done.
  - intros (tr1 & r & v & tr2 & E & Hn).
    destruct (threads_ w !! tid) as [r'|] eqn:Hm; [|done]. exfalso.
    destruct (tr_map _ _ T _ _ Hm) as (tr1' & tr2' & E' & Hn').
    rewrite E in E'. destruct (app_cons_cases _ _ _ _ _ _ E') as [Hc|Hc];
      [discriminate| exact (Hn _ Hc) | exact (Hn' _ _ Hc)].
Qed.

Lemma JoinThread_no_such_identity_witness :
  (∀ j e c', exec (Live joined_world) (AJoin j 7) = Some (e, c') →
     (e = EvJoinFail 7 ↔ threads_ joined_world !! 7 = None) ∧
     (e = EvJoinFail 7 → c' = Live joined_world)) ∧
  (∀ r t, In (EvCreateRet r 7) joined_trace → heap joined_world !! r = Some t →
     state_ t ≠ JOINED → threads_ joined_world !! 7 = Some r) ∧
  (reclaimed joined_trace 7 → threads_ joined_world !! 7 = None).
Proof.
  apply JoinThread_no_such_identity.
  apply live_ok_reach. vm_compute. reflexivity.
Defined.

(** C4 as stated fails under either reading of "issued". Read as
    "claimed by a donated thread": identity 7 is bound to Thread 0 and not
    yet in [threads_], so the join fails though 7 was issued and never
    joined. Read as "returned by [CreateThread]": identity 7 is in
    [threads_] before any [CreateThread] returned it, so the join of a
    never-issued identity does not fail. *)
Lemma JoinThread_no_such_identity_cases_counterexample :
  ¬ (∀ w tr tid, reach (Live w) tr →
       (threads_ w !! tid = None ↔ ¬ issued_by_claim tr tid ∨ reclaimed tr tid)) ∧
  ¬ (∀ w tr tid, reach (Live w) tr →
       (threads_ w !! tid = None ↔ ¬ issued_by_return tr tid ∨ reclaimed tr tid)).
Proof.
  split.
  - intros H.
    assert (Hr : reach (Live (world_of sched_bound)) (trace_of sched_bound)).
    { apply live_ok_reach. vm_compute. reflexivity. }
    destruct (proj1 (H _ _ 7 Hr) ltac:(vm_compute; reflexivity)) as [Hn|Hc].
    + apply Hn. exists 0. vm_compute. repeat (first [left; reflexivity | right]).
    + revert Hc. apply not_reclaimed. intros r v. no_event.
  - intros H.
    assert (Hr : reach (Live (world_of sched_inserted)) (trace_of sched_inserted)).
    { apply live_ok_reach. vm_compute. reflexivity. }
    assert (Hn : threads_ (world_of sched_inserted) !! 7 = None).
    { apply (proj2 (H _ _ 7 Hr)). left. intros [r Hi]. revert Hi. no_event. }
    vm_compute in Hn. discriminate.
Qed.

(** C5. [StartThread] on an empty [queued_threads_] aborts: the step's
    only outcome is the abort, and an aborted system takes no further
    step (no call returns, with an error or otherwise). *)
Theorem StartThread_empty_aborts w tid :
  queued_threads_ w = [] →
  exec (Live w) (AStart tid) = Some (EvAbort, Aborted) ∧ ∀ a, exec Aborted a = None.
Proof. intros Hq. cbn. unfold StartThread_pop. rewrite Hq. split; done. Qed.

Lemma StartThread_empty_aborts_witness :
  exec (Live init) (AStart 7) = Some (EvAbort, Aborted) ∧ ∀ a, exec Aborted a = None.
Proof. apply StartThread_empty_aborts. reflexivity. Defined.

(** The three places that call [UpdateThreadState] abort the enclave
    when the transition is refused: [Run()] entering RUNNING, [Run()]
    entering DONE after the routine returned, and [JoinThread] moving a
    DONE Thread to JOINED. *)
Lemma refused_transition_aborts :
  (∀ w tid r t, vehicles w !! tid = Some (VInserted r) → heap w !! r = Some t →
     state_ t ≠ QUEUED → exec (Live w) (ARunStart tid) = Some (EvAbort, Aborted)) ∧
  (∀ w tid r t, vehicles w !! tid = Some (VRunning r) → heap w !! r = Some t →
     state_ t ≠ RUNNING → exec (Live w) (ARunFinish tid) = Some (EvAbort, Aborted)) ∧
  (∀ w j tid r t, joiners w !! j = Some (JDone tid r) → heap w !! r = Some t →
     state_ t ≠ DONE → exec (Live w) (AJoinCapture j) = Some (EvAbort, Aborted)).
Proof.
  split; [|split].
  - intros w tid r t Hv Ht Hs. cbn. rewrite Hv, Ht.
    rewrite (proj2 (UpdateThreadState_None t RUNNING)); [done|].
    destruct (state_ t); cbn; done.
  - intros w tid r t Hv Ht Hs. cbn. rewrite Hv, Ht.
    rewrite (proj2 (UpdateThreadState_None _ DONE)); [done|].
    cbn. destruct (state_ t); cbn; done.
  - intros w j tid r t Hv Ht Hs. cbn. rewrite Hv, Ht.
    rewrite (proj2 (UpdateThreadState_None t JOINED)); [done|].
    destruct (state_ t); cbn; done.
Qed.

(** A step aborts only at [StartThread] on an empty queue or at one of
    those refused transitions. *)
Lemma abort_cases w a e :
  exec (Live w) a = Some (e, Aborted) →
  e = EvAbort ∧
  ((∃ tid, a = AStart tid ∧ queued_threads_ w = []) ∨
   (∃ tid r t, a = ARunStart tid ∧ vehicles w !! tid = Some (VInserted r) ∧
      heap w !! r = Some t ∧ state_ t ≠ QUEUED) ∨
   (∃ tid r t, a = ARunFinish tid ∧ vehicles w !! tid = Some (VRunning r) ∧
      heap w !! r = Some t ∧ state_ t ≠ RUNNING) ∨
   (∃ j tid r t, a = AJoinCapture j ∧ joiners w !! j = Some (JDone tid r) ∧
      heap w !! r = Some t ∧ state_ t ≠ DONE)).
Proof.
  intros Hx. apply exec_inv in Hx. inversion Hx; subst; split; try done.
  - left. eauto.
  - right. left. match goal with H : UpdateThreadState _ _ = None |- _ =>
      apply UpdateThreadState_None in H end.
    do 3 eexists. split; [reflexivity|]. split; [eassumption|]. split; [eassumption|].
    intros Hq. rewrite Hq in *. cbn in *. done.
  - right. right. left. match goal with H : UpdateThreadState _ _ = None |- _ =>
      apply UpdateThreadState_None in H end.
    do 3 eexists. split; [reflexivity|]. split; [eassumption|]. split; [eassumption|].
    intros Hq. cbn in *. rewrite Hq in *. cbn in *. done.
  - right. right. right. match goal with H : UpdateThreadState _ _ = None |- _ =>
      apply UpdateThreadState_None in H end.
    do 4 eexists. split; [reflexivity|]. split; [eassumption|]. split; [eassumption|].
    intros Hq. rewrite Hq in *. cbn in *. done.
Qed.

(** C6. In every step of every interleaving, each Thread's state stays
    put or moves to its successor in QUEUED -> RUNNING -> DONE -> JOINED,
    and a new Thread starts QUEUED; a step that fails instead is the
    abort. No routine ever returns twice. [UpdateThreadState] refuses
    exactly the transitions that are not to the successor state, and a
    refused transition is fatal: in any world, [Run()] entering RUNNING
    from a state other than QUEUED, [Run()] entering DONE from a state
    other than RUNNING (a second run of the routine included: no
    [EvInvoke] is emitted), and a join moving to JOINED a Thread that is
    not DONE each step to [Aborted]. Every abort is one of these or
    [StartThread] on an empty queue, and [Aborted] takes no further step,
    so nothing recovers from it. *)
Theorem ThreadState_forward_only w tr a e c' :
  reach (Live w) tr → exec (Live w) a = Some (e, c') →
  (match c' with
   | Live w' => ∀ r t', heap w' !! r = Some t' →
       match heap w !! r with
       | Some t => state_ t' = state_ t ∨ next_state (state_ t) = Some (state_ t')
       | None => state_ t' = QUEUED
       end
   | Aborted => e = EvAbort
   end) ∧
  (∀ r, invoke_count r (tr ++ [e]) ≤ 1) ∧
  (∀ t s, UpdateThreadState t s = None ↔ next_state (state_ t) ≠ Some s) ∧
  (∀ w0 tid r t, vehicles w0 !! tid = Some (VInserted r) → heap w0 !! r = Some t →
     state_ t ≠ QUEUED → exec (Live w0) (ARunStart tid) = Some (EvAbort, Aborted)) ∧
  (∀ w0 tid r t, vehicles w0 !! tid = Some (VRunning r) → heap w0 !! r = Some t →
     state_ t ≠ RUNNING → exec (Live w0) (ARunFinish tid) = Some (EvAbort, Aborted)) ∧
  (∀ w0 j tid r t, joiners w0 !! j = Some (JDone tid r) → heap w0 !! r = Some t →
     state_ t ≠ DONE → exec (Live w0) (AJoinCapture j) = Some (EvAbort, Aborted)) ∧
  (∀ w0 a0 e0, exec (Live w0) a0 = Some (e0, Aborted) →
     e0 = EvAbort ∧
     ((∃ tid, a0 = AStart tid ∧ queued_threads_ w0 = []) ∨
      (∃ tid r t, a0 = ARunStart tid ∧ vehicles w0 !! tid = Some (VInserted r) ∧
         heap w0 !! r = Some t ∧ state_ t ≠ QUEUED) ∨
      (∃ tid r t, a0 = ARunFinish tid ∧ vehicles w0 !! tid = Some (VRunning r) ∧
         heap w0 !! r = Some t ∧ state_ t ≠ RUNNING) ∨
      (∃ j tid r t, a0 = AJoinCapture j ∧ joiners w0 !! j = Some (JDone tid r) ∧
         heap w0 !! r = Some t ∧ state_ t ≠ DONE))) ∧
  (∀ a0, exec Aborted a0 = None).
Proof.
  intros H Hx. destruct (reach_live _ _ H) as [W T].
  assert (Hd : ∀ o, done_count o ≤ 1).
  { intros [t|]; cbn; [destruct (state_ t)|]; lia. }
  pose proof (exec_inv _ _ _ _ Hx) as Hs.
  destruct refused_transition_aborts as (R1 & R2 & R3).
  split; [|split; [|split; [exact UpdateThreadState_None|]]].
  - destruct c' as [w'|].
    + intros r t' Ht'.
      destruct (exec_heap_bwd _ _ _ _ _ _ Hs Ht') as
        [(-> & _ & Hq & _)|(t & -> & _ & Hst & _)]; done.
    + inversion Hs; done.
  - intros r. destruct c' as [w'|].
    + destruct (reach_live _ _ (reach_step _ _ _ _ _ H Hx)) as [_ T'].
      rewrite (tr_invoke _ _ T'). apply Hd.
    + assert (e = EvAbort) as -> by (inversion Hs; done).
      rewrite invoke_count_app, invoke_count_other, (tr_invoke _ _ T) by discriminate.
      specialize (Hd (heap w !! r)). lia.
  - split; [exact R1|]. split; [exact R2|]. split; [exact R3|].
    split; [exact abort_cases|]. intros a0. done.
Qed.

Lemma ThreadState_forward_only_witness :
  ((∀ r t', heap (world_of (sched_run (fun _ => 42%Z))) !! r = Some t' →
     match heap (world_of (sched_running (fun _ => 42%Z))) !! r with
     | Some t => state_ t' = state_ t ∨ next_state (state_ t) = Some (state_ t')
     | None => state_ t' = QUEUED
     end) ∧
  (∀ r, invoke_count r (trace_of (sched_running (fun _ => 42%Z)) ++ [EvInvoke 0 42%Z]) ≤ 1) ∧
  (∀ t s, UpdateThreadState t s = None ↔ next_state (state_ t) ≠ Some s) ∧
  (∀ w0 tid r t, vehicles w0 !! tid = Some (VInserted r) → heap w0 !! r = Some t →
     state_ t ≠ QUEUED → exec (Live w0) (ARunStart tid) = Some (EvAbort, Aborted)) ∧
  (∀ w0 tid r t, vehicles w0 !! tid = Some (VRunning r) → heap w0 !! r = Some t →
     state_ t ≠ RUNNING → exec (Live w0) (ARunFinish tid) = Some (EvAbort, Aborted)) ∧
  (∀ w0 j tid r t, joiners w0 !! j = Some (JDone tid r) → heap w0 !! r = Some t →
     state_ t ≠ DONE → exec (Live w0) (AJoinCapture j) = Some (EvAbort, Aborted)) ∧
  (∀ w0 a0 e0, exec (Live w0) a0 = Some (e0, Aborted) →
     e0 = EvAbort ∧
     ((∃ tid, a0 = AStart tid ∧ queued_threads_ w0 = []) ∨
      (∃ tid r t, a0 = ARunStart tid ∧ vehicles w0 !! tid = Some (VInserted r) ∧
         heap w0 !! r = Some t ∧ state_ t ≠ QUEUED) ∨
      (∃ tid r t, a0 = ARunFinish tid ∧ vehicles w0 !! tid = Some (VRunning r) ∧
         heap w0 !! r = Some t ∧ state_ t ≠ RUNNING) ∨
      (∃ j tid r t, a0 = AJoinCapture j ∧ joiners w0 !! j = Some (JDone tid r) ∧
         heap w0 !! r = Some t ∧ state_ t ≠ DONE))) ∧
  (∀ a0, exec Aborted a0 = None)) ∧
  exec (Live second_run_world) (ARunFinish 7) = Some (EvAbort, Aborted).
Proof.
  assert (H : reach (Live (world_of (sched_running (fun _ => 42%Z))))
                (trace_of (sched_running (fun _ => 42%Z)))).
  { apply live_ok_reach. vm_compute. reflexivity. }
  assert (Hx : exec (Live (world_of (sched_running (fun _ => 42%Z)))) (ARunFinish 7) =
               Some (EvInvoke 0 42%Z, Live (world_of (sched_run (fun _ => 42%Z))))).
  { vm_compute. reflexivity. }
  pose proof (ThreadState_forward_only _ _ _ _ _ H Hx) as C.
  split; [exact C|].
  destruct C as (_ & _ & _ & _ & R2 & _).
  apply (R2 second_run_world 7 0 (mkThread (fun _ => 42%Z) (Some 42%Z) (Some 7) DONE));
    [reflexivity|reflexivity|discriminate].
Defined.

(** ** Further properties of the manager *)

Lemma submits_in r tr : In r (submits tr) → ∃ f, In (EvSubmit r f) tr.
Proof.
  intros H. induction tr as [|e tr IH]; [destruct H|].
  destruct e as [r0 f0| | | | | | |]; cbn in H;
    try (destruct (IH H) as [g Hg]; exists g; right; exact Hg).
  destruct H as [->|H]; [exists f0; left; reflexivity|].
  destruct (IH H) as [g Hg]. exists g. right. exact Hg.
Qed.

Lemma reach_live_submits_nodup w tr : reach (Live w) tr → NoDup (submits tr).
Proof.
  remember (Live w) as c eqn:Ec. intros H. revert w Ec.
  induction H as [|c tr a e c' H IH Hx]; intros w' Ec.
  - constructor.
  - subst c'. destruct c as [w|]; [|discriminate].
    specialize (IH w eq_refl). destruct (reach_live _ _ H) as [_ T].
    apply exec_inv in Hx. rewrite submits_app.
    inversion Hx as [r0 f0 Hr| | | | | | | | | | | | | | | ]; subst; cbn; rewrite ?app_nil_r;
      try exact IH.
    apply NoDup_app. split; [exact IH|]. split; [|apply NoDup_singleton].
    intros x Hx1 Hx2. apply list_elem_of_singleton in Hx2 as ->.
    apply list_elem_of_In, submits_in in Hx1 as [f' Hf'].
    destruct (tr_submit_heap _ _ T _ _ Hf') as (t & Ht & _). congruence.
Qed.

(** [GetThread(tid)] looks up [threads_]: in every reachable state each
    entry of [threads_] under [tid] is a live Thread whose [thread_id_] is
    [tid], so no two identities share a Thread. *)
Theorem threads_entries_bound w tr :
  reach (Live w) tr →
  (∀ tid r, threads_ w !! tid = Some r →
     ∃ t, heap w !! r = Some t ∧ thread_id_ t = Some tid) ∧
  (∀ tid1 tid2 r, threads_ w !! tid1 = Some r → threads_ w !! tid2 = Some r → tid1 = tid2).
Proof.
  intros H. destruct (reach_live _ _ H) as [W _]. split; [exact (wf_map _ W)|].
  intros tid1 tid2 r H1 H2.
  destruct (wf_map _ W _ _ H1) as (t1 & Ht1 & Hid1).
  destruct (wf_map _ W _ _ H2) as (t2 & Ht2 & Hid2). congruence.
Qed.

Lemma threads_entries_bound_witness :
  threads_ (world_of (sched_running (fun _ => 42%Z))) !! 7 = Some 0 ∧
  (∀ tid r, threads_ (world_of (sched_running (fun _ => 42%Z))) !! tid = Some r →
     ∃ t, heap (world_of (sched_running (fun _ => 42%Z))) !! r = Some t ∧
          thread_id_ t = Some tid) ∧
  (∀ tid1 tid2 r, threads_ (world_of (sched_running (fun _ => 42%Z))) !! tid1 = Some r →
     threads_ (world_of (sched_running (fun _ => 42%Z))) !! tid2 = Some r → tid1 = tid2).
Proof.
  split; [vm_compute; reflexivity|].
  apply (threads_entries_bound _ (trace_of (sched_running (fun _ => 42%Z)))).
  apply live_ok_reach. vm_compute. reflexivity.
Defined.

(** [threads_] holds the running Threads and those waiting to be joined:
    in every reachable state a Thread bound to [tid] that is RUNNING or
    DONE is found by [GetThread(tid)]. *)
Theorem active_threads_registered w tr r t tid :
  reach (Live w) tr → heap w !! r = Some t → thread_id_ t = Some tid →
  (state_ t = RUNNING ∨ state_ t = DONE) → threads_ w !! tid = Some r.
Proof. intros H. destruct (reach_live _ _ H) as [W _]. exact (wf_active _ W r t tid). Qed.

Lemma active_threads_registered_witness :
  ∃ t, heap (world_of (sched_run (fun _ => 42%Z))) !! 0 = Some t ∧ thread_id_ t = Some 7 ∧
       state_ t = DONE ∧ threads_ (world_of (sched_run (fun _ => 42%Z))) !! 7 = Some 0.
Proof.
  eexists. split; [vm_compute; reflexivity|]. split; [reflexivity|]. split; [reflexivity|].
  eapply (active_threads_registered _ (trace_of (sched_run (fun _ => 42%Z))) 0 _ 7).
  - apply live_ok_reach. vm_compute. reflexivity.
  - vm_compute. reflexivity.
  - reflexivity.
  - right. reflexivity.
Defined.

(** [queued_threads_] holds each Thread at most once, and every queued
    Thread is still QUEUED, bound to no identity, and held by no
    [StartThread] call. *)
Theorem queued_threads_fresh w tr :
  reach (Live w) tr →
  NoDup (queued_threads_ w) ∧
  ∀ r, r ∈ queued_threads_ w →
    (∃ t, heap w !! r = Some t ∧ state_ t = QUEUED ∧ thread_id_ t = None) ∧
    (∀ tid p, vehicles w !! tid = Some p → vehicle_ref p ≠ r).
Proof.
  intros H. destruct (reach_live _ _ H) as [W _].
  split; [exact (wf_queue_nodup _ W)|exact (wf_queue _ W)].
Qed.

Lemma queued_threads_fresh_witness :
  queued_threads_ (world_of [ACreate 0 (fun _ => 10%Z); ACreate 1 (fun _ => 11%Z); AStart 9])
    = [1] ∧
  NoDup (queued_threads_
           (world_of [ACreate 0 (fun _ => 10%Z); ACreate 1 (fun _ => 11%Z); AStart 9])) ∧
  ∀ r, r ∈ queued_threads_
           (world_of [ACreate 0 (fun _ => 10%Z); ACreate 1 (fun _ => 11%Z); AStart 9]) →
    (∃ t, heap (world_of [ACreate 0 (fun _ => 10%Z); ACreate 1 (fun _ => 11%Z); AStart 9])
            !! r = Some t ∧ state_ t = QUEUED ∧ thread_id_ t = None) ∧
    (∀ tid p, vehicles
                (world_of [ACreate 0 (fun _ => 10%Z); ACreate 1 (fun _ => 11%Z); AStart 9])
                !! tid = Some p → vehicle_ref p ≠ r).
Proof.
  split; [vm_compute; reflexivity|].
  apply (queued_threads_fresh _
           (trace_of [ACreate 0 (fun _ => 10%Z); ACreate 1 (fun _ => 11%Z); AStart 9])).
  apply live_ok_reach. vm_compute. reflexivity.
Defined.

(** [GetReturnValue] of a Thread that is DONE or JOINED is what its
    [start_routine_] returns: [Run()] stores it before leaving RUNNING. *)
Theorem finished_ret_is_routine_value w tr r t :
  reach (Live w) tr → heap w !! r = Some t → (state_ t = DONE ∨ state_ t = JOINED) →
  ret_ t = Some (start_routine_ t tt).
Proof. intros H. destruct (reach_live _ _ H) as [W _]. exact (wf_ret _ W r t). Qed.

Lemma finished_ret_is_routine_value_witness :
  ∃ t, heap joined_world !! 0 = Some t ∧ state_ t = JOINED ∧ ret_ t = Some 42%Z.
Proof.
  eexists. split; [vm_compute; reflexivity|]. split; [reflexivity|].
  apply (finished_ret_is_routine_value joined_world joined_trace 0).
  - apply live_ok_reach. vm_compute. reflexivity.
  - vm_compute. reflexivity.
  - right. reflexivity.
Defined.

(** Each [CreateThread] queues a Thread of its own, and each queued Thread
    is popped by at most one [StartThread]: in every interleaving no Thread
    is submitted twice or claimed twice, and the same holds after an
    abort. *)
Theorem threads_claimed_once c tr :
  reach c tr → NoDup (submits tr) ∧ NoDup (claims tr).
Proof.
  intros H. destruct (reach_live_prefix _ _ H) as (w & tr0 & H0 & E).
  destruct (reach_live _ _ H0) as [_ T].
  pose proof (reach_live_submits_nodup _ _ H0) as Hs.
  assert (Hs' : NoDup (submits tr0) ∧ NoDup (claims tr0)).
  { split; [exact Hs|]. rewrite (tr_fifo _ _ T) in Hs. exact (proj1 (proj1 (NoDup_app _ _) Hs)). }
  destruct E as [->| ->]; [exact Hs'|].
  rewrite submits_app, claims_app. cbn. rewrite !app_nil_r. exact Hs'.
Qed.

Lemma threads_claimed_once_witness :
  claims (trace_of sched_fifo) = [0; 1] ∧
  NoDup (submits (trace_of sched_fifo)) ∧ NoDup (claims (trace_of sched_fifo)).
Proof.
  split; [vm_compute; reflexivity|].
  apply (threads_claimed_once (Live (world_of sched_fifo))).
  apply live_ok_reach. vm_compute. reflexivity.
Defined.

End ThreadManager.

Module RemoteAssertionGeneratorEnclaveUtil.

(** ** Status *)

(** [asylo::error::GoogleError]. *)
Inductive GoogleError :=
  | OK | CANCELLED | UNKNOWN | INVALID_ARGUMENT | DEADLINE_EXCEEDED | NOT_FOUND
  | ALREADY_EXISTS | PERMISSION_DENIED | RESOURCE_EXHAUSTED | FAILED_PRECONDITION
  | ABORTED | OUT_OF_RANGE | UNIMPLEMENTED | INTERNAL | UNAVAILABLE | DATA_LOSS
  | UNAUTHENTICATED.

#[global] Instance GoogleError_eq_dec : EqDecision GoogleError.
Proof. solve_decision. Defined.

Record Status := mkStatus { code : GoogleError; message : string }.

Definition OkStatus : Status := mkStatus OK EmptyString.

Definition ok (s : Status) : bool := if decide (code s = OK) then true else false.

(** [StatusOr<T>]: a value or a non-OK status. *)
Inductive StatusOr (A : Type) := Ok (a : A) | Err (s : Status).
Arguments Ok {A} a.
Arguments Err {A} s.

(** ** Protocol buffers of the sealed secret *)

(** [SealedSecretHeader] (proto2): the fields the code reads, and the
    sealer's handling policy, kept opaque. [None] is an unset field. *)
Record SealedSecretHeader := mkSealedSecretHeader {
  secret_name_ : option string;
  secret_version_ : option string;
  secret_purpose_ : option string;
  secret_handling_policy_ : option string
}.

Definition empty_header : SealedSecretHeader := mkSealedSecretHeader None None None None.

(** The generated getters: an unset string field reads as empty. *)
Definition secret_name (h : SealedSecretHeader) : string := default EmptyString (secret_name_ h).
Definition secret_version (h : SealedSecretHeader) : string :=
  default EmptyString (secret_version_ h).
Definition secret_purpose (h : SealedSecretHeader) : string :=
  default EmptyString (secret_purpose_ h).

(** [Message::MergeFrom]: every field set in [from] overwrites. *)
Definition merge_field (into from : option string) : option string :=
  match from with Some x => Some x | None => into end.

Definition MergeFrom (into from : SealedSecretHeader) : SealedSecretHeader :=
  mkSealedSecretHeader (merge_field (secret_name_ into) (secret_name_ from))
    (merge_field (secret_version_ into) (secret_version_ from))
    (merge_field (secret_purpose_ into) (secret_purpose_ from))
    (merge_field (secret_handling_policy_ into) (secret_handling_policy_ from)).

Inductive AsymmetricKeyEncoding :=
  | UNKNOWN_ASYMMETRIC_KEY_ENCODING | ASYMMETRIC_KEY_DER | ASYMMETRIC_KEY_PEM.

#[global] Instance AsymmetricKeyEncoding_eq_dec : EqDecision AsymmetricKeyEncoding.
Proof. solve_decision. Defined.

(** [AsymmetricSigningKeyProto::KeyType]. *)
Inductive KeyType := UNKNOWN_KEY_TYPE | VERIFYING_KEY | SIGNING_KEY.

#[global] Instance KeyType_eq_dec : EqDecision KeyType.
Proof. solve_decision. Defined.

Definition AsymmetricSigningKeyProto_KeyType_Name (k : KeyType) : string :=
  match k with
  | UNKNOWN_KEY_TYPE => "UNKNOWN_KEY_TYPE"
  | VERIFYING_KEY => "VERIFYING_KEY"
  | SIGNING_KEY => "SIGNING_KEY"
  end.

Inductive SignatureScheme := UNKNOWN_SIGNATURE_SCHEME | ECDSA_P256_SHA256 | ECDSA_P384_SHA384.

(** [AsymmetricSigningKeyProto]; [key] holds the encoded key bytes. *)
Record AsymmetricSigningKeyProto := mkAsymmetricSigningKeyProto {
  key : string;
  encoding : AsymmetricKeyEncoding;
  key_type : KeyType;
  signature_scheme : SignatureScheme
}.

Definition default_AsymmetricSigningKeyProto : AsymmetricSigningKeyProto :=
  mkAsymmetricSigningKeyProto EmptyString UNKNOWN_ASYMMETRIC_KEY_ENCODING UNKNOWN_KEY_TYPE
    UNKNOWN_SIGNATURE_SCHEME.

(** [RemoteAssertionGeneratorEnclaveSecret]. *)
Record RemoteAssertionGeneratorEnclaveSecret := mkRemoteAssertionGeneratorEnclaveSecret {
  attestation_key_ : option AsymmetricSigningKeyProto
}.

Definition attestation_key (s : RemoteAssertionGeneratorEnclaveSecret)
    : AsymmetricSigningKeyProto :=
  default default_AsymmetricSigningKeyProto (attestation_key_ s).

(** [RemoteAssertionGeneratorEnclaveSecretAad], over the type of
    [CertificateChain] messages. *)
Record RemoteAssertionGeneratorEnclaveSecretAad (CertificateChain : Type) :=
  mkRemoteAssertionGeneratorEnclaveSecretAad { certificate_chains : list CertificateChain }.
Arguments mkRemoteAssertionGeneratorEnclaveSecretAad {CertificateChain} certificate_chains.
Arguments certificate_chains {CertificateChain} r.

Definition kSecretName : string := "Assertion Generator Enclave Secret".
Definition kSecretVersion : string := "Assertion Generator Enclave Secret v0.1".
Definition kSecretPurpose : string :=
  "Assertion Generator Enclave Attestation Key and Certificates".

(** ** The collaborators *)

(** What the utility uses from outside this file: protobuf
    serialisation, the signing-key library ([SigningKey::SerializeToDer],
    [EcdsaP256Sha256SigningKey::CreateFromDer]) and the sealer that
    [SgxLocalSecretSealer::CreateMrsignerSecretSealer()] returns. [Bytes]
    are serialised messages and sealed payloads; [SetDefaultHeader] is the
    header the sealer writes into a fresh [SealedSecretHeader]. *)
Class SealingEnv := {
  Bytes : Type;
  bytes_empty : Bytes → bool;
  SigningKey : Type;
  SerializeToDer : SigningKey → StatusOr string;
  GetSignatureScheme : SigningKey → SignatureScheme;
  EcdsaP256Sha256SigningKey : Type;
  CreateFromDer : string → StatusOr EcdsaP256Sha256SigningKey;
  CertificateChain : Type;
  SerializeHeader : SealedSecretHeader → Bytes;
  ParseHeader : Bytes → option SealedSecretHeader;
  SerializeSecret : RemoteAssertionGeneratorEnclaveSecret → Bytes;
  ParseSecret : Bytes → option RemoteAssertionGeneratorEnclaveSecret;
  SerializeAad : RemoteAssertionGeneratorEnclaveSecretAad CertificateChain → Bytes;
  ParseAad : Bytes → option (RemoteAssertionGeneratorEnclaveSecretAad CertificateChain);
  SealedSecret : Type;
  sealed_secret_header : SealedSecret → Bytes;
  additional_authenticated_data : SealedSecret → Bytes;
  SetDefaultHeader : SealedSecretHeader;
  Seal : SealedSecretHeader → Bytes → Bytes → StatusOr SealedSecret;
  Unseal : SealedSecret → StatusOr Bytes
}.

(** What the round trip needs of them: parsing inverts serialising, and
    a sealed secret carries the serialised header and the additional
    authenticated data it was sealed with and unseals to its payload. *)
Record SealingLaws `{SealingEnv} : Prop := {
  ParseHeader_SerializeHeader h : ParseHeader (SerializeHeader h) = Some h;
  ParseSecret_SerializeSecret s : ParseSecret (SerializeSecret s) = Some s;
  ParseAad_SerializeAad a : ParseAad (SerializeAad a) = Some a;
  Seal_header h aad p ss : Seal h aad p = Ok ss → sealed_secret_header ss = SerializeHeader h;
  Seal_aad h aad p ss : Seal h aad p = Ok ss → additional_authenticated_data ss = aad;
  Seal_Unseal h aad p ss : Seal h aad p = Ok ss → Unseal ss = Ok p
}.

(** ** The utility functions *)

Definition CheckRemoteAssertionGeneratorEnclaveSecretHeader (header : SealedSecretHeader)
    : Status :=
  if decide (secret_name header ≠ kSecretName) then
    mkStatus INVALID_ARGUMENT "Invalid sealed secret header: incorrect secret name"
  else if decide (secret_version header ≠ kSecretVersion) then
    mkStatus INVALID_ARGUMENT "Invalid sealed secret header: incorrect secret version"
  else if decide (secret_purpose header ≠ kSecretPurpose) then
    mkStatus INVALID_ARGUMENT "Invalid sealed secret header: incorrect secret purpose"
  else OkStatus.

Definition GetRemoteAssertionGeneratorEnclaveSecretHeader : SealedSecretHeader :=
  mkSealedSecretHeader (Some kSecretName) (Some kSecretVersion) (Some kSecretPurpose) None.

(** Sets all four fields, so the result does not depend on the proto
    passed in. *)
Definition SetAsymmetricSigningKeyProto (serialized_key_der : string) (key_type : KeyType)
    (signature_scheme : SignatureScheme) : AsymmetricSigningKeyProto :=
  mkAsymmetricSigningKeyProto serialized_key_der ASYMMETRIC_KEY_DER key_type signature_scheme.

Section Util.
Context `{E : SealingEnv}.

Definition ExtractAttestationKeyFromAsymmetricSigningKeyProto
    (asymmetric_signing_key_proto : AsymmetricSigningKeyProto)
    : StatusOr EcdsaP256Sha256SigningKey :=
  if decide (key_type asymmetric_signing_key_proto ≠ SIGNING_KEY) then
    Err (mkStatus INVALID_ARGUMENT
           (String.append "The sealed secret key has invalid key type: "
              (AsymmetricSigningKeyProto_KeyType_Name (key_type asymmetric_signing_key_proto))))
  else
    match encoding asymmetric_signing_key_proto with
    | ASYMMETRIC_KEY_DER => CreateFromDer (key asymmetric_signing_key_proto)
    | ASYMMETRIC_KEY_PEM =>
        Err (mkStatus UNIMPLEMENTED
               "Create attestation key from a PEM-encoded key is not supported")
    | _ =>
        Err (mkStatus INVALID_ARGUMENT "AsymmetricSigningKeyProto has unknown encoding format")
    end.

Definition GetAsymmetricSigningKeyProtoFromSigningKey (signing_key : SigningKey)
    : StatusOr AsymmetricSigningKeyProto :=
  match SerializeToDer signing_key with
  | Err s => Err s
  | Ok signing_key_der =>
      Ok (SetAsymmetricSigningKeyProto signing_key_der SIGNING_KEY
            (GetSignatureScheme signing_key))
  end.

Definition CreateSealedSecret (header : SealedSecretHeader)
    (certificate_chains : list CertificateChain) (attestation_key : SigningKey)
    : StatusOr SealedSecret :=
  let secret_header := MergeFrom SetDefaultHeader header in
  match GetAsymmetricSigningKeyProtoFromSigningKey attestation_key with
  | Err s => Err s
  | Ok key_proto =>
      let enclave_secret := mkRemoteAssertionGeneratorEnclaveSecret (Some key_proto) in
      let aad := mkRemoteAssertionGeneratorEnclaveSecretAad certificate_chains in
      let serialized_enclave_secret := SerializeSecret enclave_secret in
      if bytes_empty serialized_enclave_secret then
        Err (mkStatus INTERNAL "Enclave secret serialization failed")
      else
        let serialized_aad := SerializeAad aad in
        if bytes_empty serialized_aad then
          Err (mkStatus INTERNAL "Enclave additional authenticated data serialization failed")
        else Seal secret_header serialized_aad serialized_enclave_secret
  end.

(** The [certificate_chains] out-parameter is passed in and returned; it
    is written only once the additional authenticated data parsed. *)
Definition ExtractAttestationKeyAndCertificateChainsFromSealedSecret
    (sealed_secret : SealedSecret) (certificate_chains : list CertificateChain)
    : StatusOr EcdsaP256Sha256SigningKey * list CertificateChain :=
  match ParseHeader (sealed_secret_header sealed_secret) with
  | None =>
      (Err (mkStatus INVALID_ARGUMENT "Cannot parse the sealed secret header"),
       certificate_chains)
  | Some header =>
      let status := CheckRemoteAssertionGeneratorEnclaveSecretHeader header in
      if ok status then
        match Unseal sealed_secret with
        | Err s => (Err s, certificate_chains)
        | Ok serialized_secret =>
            match ParseSecret serialized_secret with
            | None =>
                (Err (mkStatus INVALID_ARGUMENT "Cannot parse the sealed secret"),
                 certificate_chains)
            | Some enclave_secret =>
                match ParseAad (additional_authenticated_data sealed_secret) with
                | None =>
                    (Err (mkStatus INVALID_ARGUMENT
                            "Cannot parse the additional authenticated data"),
                     certificate_chains)
                | Some (mkRemoteAssertionGeneratorEnclaveSecretAad aad_chains) =>
                    (ExtractAttestationKeyFromAsymmetricSigningKeyProto
                       (attestation_key enclave_secret),
                     aad_chains)
                end
            end
        end
      else (Err status, certificate_chains)
  end.

End Util.

(** ** The PCE Sign Report payload *)

Definition kAttestationPublicKeyVersion : string :=
  "Assertion Generator Enclave Attestation Key v0.1".
Definition kAttestationPublicKeyPurpose : string := "Assertion Generator Enclave Attestation Key".
Definition kPceSignReportPayloadVersion : string := "PCE Sign Report v0.1".

(** [AttestationPublicKey] (proto2); fields are prefixed with the message
    name, as [PceSignReportPayload] has fields of the same names. *)
Record AttestationPublicKey := mkAttestationPublicKey {
  AttestationPublicKey_version_ : option string;
  AttestationPublicKey_purpose_ : option string;
  AttestationPublicKey_attestation_public_key_ : option AsymmetricSigningKeyProto
}.

(** [PceSignReportPayload]. *)
Record PceSignReportPayload := mkPceSignReportPayload {
  PceSignReportPayload_version_ : option string;
  PceSignReportPayload_attestation_public_key_ : option AttestationPublicKey
}.

(** The verifying-key library ([VerifyingKey::SerializeToDer] and
    [GetSignatureScheme]) and the serialisation of [PceSignReportPayload];
    [PceBytes] is the [std::string] that [SerializeAsString] returns. *)
Class PceEnv := {
  PceBytes : Type;
  VerifyingKey : Type;
  VerifyingKey_SerializeToDer : VerifyingKey → StatusOr string;
  VerifyingKey_GetSignatureScheme : VerifyingKey → SignatureScheme;
  SerializePceSignReportPayload : PceSignReportPayload → PceBytes;
  ParsePceSignReportPayload : PceBytes → option PceSignReportPayload
}.

Record PceLaws `{PceEnv} : Prop := {
  ParsePce_SerializePce p : ParsePceSignReportPayload (SerializePceSignReportPayload p) = Some p
}.

Section Pce.
Context `{P : PceEnv}.

Definition CreateSerializedPceSignReportPayloadFromVerifyingKey (verifying_key : VerifyingKey)
    : StatusOr PceBytes :=
  match VerifyingKey_SerializeToDer verifying_key with
  | Err s => Err s
  | Ok serialized_key_der =>
      let public_key :=
        mkAttestationPublicKey (Some kAttestationPublicKeyVersion)
          (Some kAttestationPublicKeyPurpose)
          (Some (SetAsymmetricSigningKeyProto serialized_key_der VERIFYING_KEY
                   (VerifyingKey_GetSignatureScheme verifying_key))) in
      Ok (SerializePceSignReportPayload
            (mkPceSignReportPayload (Some kPceSignReportPayloadVersion) (Some public_key)))
  end.

End Pce.

(** ** A small instance of the collaborators *)

(** Serialised messages of the instance; as with protobuf, a message with
    no field set serialises to the empty string [BEmpty]. *)
Inductive Blob :=
  | BEmpty
  | BHeader (h : SealedSecretHeader)
  | BSecret (s : RemoteAssertionGeneratorEnclaveSecret)
  | BAad (chains : list string).

Record ToySealedSecret := mkToySealedSecret {
  toy_header : Blob; toy_aad : Blob; toy_payload : Blob
}.

#[global] Instance SealedSecretHeader_eq_dec : EqDecision SealedSecretHeader.
Proof. solve_decision. Defined.

Definition toy_serialize_header (h : SealedSecretHeader) : Blob :=
  if decide (h = empty_header) then BEmpty else BHeader h.
Definition toy_parse_header (b : Blob) : option SealedSecretHeader :=
  match b with BEmpty => Some empty_header | BHeader h => Some h | _ => None end.
Definition toy_serialize_secret (s : RemoteAssertionGeneratorEnclaveSecret) : Blob :=
  match attestation_key_ s with None => BEmpty | Some _ => BSecret s end.
Definition toy_parse_secret (b : Blob) : option RemoteAssertionGeneratorEnclaveSecret :=
  match b with
  | BEmpty => Some (mkRemoteAssertionGeneratorEnclaveSecret None)
  | BSecret s => Some s
  | _ => None
  end.
Definition toy_serialize_aad (a : RemoteAssertionGeneratorEnclaveSecretAad string) : Blob :=
  match certificate_chains a with [] => BEmpty | c => BAad c end.
Definition toy_parse_aad (b : Blob) : option (RemoteAssertionGeneratorEnclaveSecretAad string) :=
  match b with
  | BEmpty => Some (mkRemoteAssertionGeneratorEnclaveSecretAad [])
  | BAad c => Some (mkRemoteAssertionGeneratorEnclaveSecretAad c)
  | _ => None
  end.

(** Keys are their DER encoding; sealing keeps the payload. *)
Definition toy_env : SealingEnv := {|
  Bytes := Blob;
  bytes_empty b := match b with BEmpty => true | _ => false end;
  SigningKey := string;
  SerializeToDer k := Ok k;
  GetSignatureScheme _ := ECDSA_P256_SHA256;
  EcdsaP256Sha256SigningKey := string;
  CreateFromDer der := Ok der;
  CertificateChain := string;
  SerializeHeader := toy_serialize_header;
  ParseHeader := toy_parse_header;
  SerializeSecret := toy_serialize_secret;
  ParseSecret := toy_parse_secret;
  SerializeAad := toy_serialize_aad;
  ParseAad := toy_parse_aad;
  SealedSecret := ToySealedSecret;
  sealed_secret_header := toy_header;
  additional_authenticated_data := toy_aad;
  SetDefaultHeader := mkSealedSecretHeader None None None (Some "MRSIGNER");
  Seal h aad p := Ok (mkToySealedSecret (toy_serialize_header h) aad p);
  Unseal ss := Ok (toy_payload ss)
|}.

(** A header naming the right secret with another purpose. *)
Definition other_purpose_header : SealedSecretHeader :=
  mkSealedSecretHeader (Some kSecretName) (Some kSecretVersion) (Some "Something else") None.

(** A sealed secret of [toy_env] carrying that header. *)
Definition other_purpose_sealed : @SealedSecret toy_env :=
  mkToySealedSecret (BHeader other_purpose_header) BEmpty BEmpty.

(** A sealed secret of [toy_env] under the enclave's own header whose
    secret has no attestation key set, sealed with one certificate chain. *)
Definition keyless_sealed : @SealedSecret toy_env :=
  mkToySealedSecret (BHeader GetRemoteAssertionGeneratorEnclaveSecretHeader)
    (BAad ["chain"%string]) BEmpty.

(** Verifying keys are their DER encoding; a payload serialises to itself. *)
Definition toy_pce_env : PceEnv := {|
  PceBytes := PceSignReportPayload;
  VerifyingKey := string;
  VerifyingKey_SerializeToDer vk := Ok vk;
  VerifyingKey_GetSignatureScheme _ := ECDSA_P256_SHA256;
  SerializePceSignReportPayload p := p;
  ParsePceSignReportPayload p := Some p
|}.

(** ** Properties *)

Lemma toy_laws : @SealingLaws toy_env.
Proof.
  constructor; cbn.
  - intros h. unfold toy_serialize_header. destruct (decide (h = empty_header)) as [->|]; done.
  - intros [[k|]]; done.
  - intros [[|c cs]]; done.
  - intros h aad p ss [= <-]. done.
  - intros h aad p ss [= <-]. done.
  - intros h aad p ss [= <-]. done.
Qed.

Lemma toy_pce_laws : @PceLaws toy_pce_env.
Proof. constructor. intros p. reflexivity. Qed.

Lemma CheckRemoteAssertionGeneratorEnclaveSecretHeader_ok h :
  CheckRemoteAssertionGeneratorEnclaveSecretHeader h = OkStatus ↔
  secret_name h = kSecretName ∧ secret_version h = kSecretVersion ∧
  secret_purpose h = kSecretPurpose.
Proof.
  unfold CheckRemoteAssertionGeneratorEnclaveSecretHeader.
  destruct (decide (secret_name h ≠ kSecretName)) as [Hn|Hn];
    [split; [discriminate|intros (? & _); done]|].
  destruct (decide (secret_version h ≠ kSecretVersion)) as [Hv|Hv];
    [split; [discriminate|intros (_ & ? & _); done]|].
  destruct (decide (secret_purpose h ≠ kSecretPurpose)) as [Hp|Hp];
    [split; [discriminate|intros (_ & _ & ?); done]|].
  split; [|done]. intros _. apply dec_stable in Hn, Hv, Hp. done.
Qed.

Lemma CheckRemoteAssertionGeneratorEnclaveSecretHeader_code h :
  CheckRemoteAssertionGeneratorEnclaveSecretHeader h = OkStatus ∨
  ∃ msg, CheckRemoteAssertionGeneratorEnclaveSecretHeader h = mkStatus INVALID_ARGUMENT msg.
Proof.
  unfold CheckRemoteAssertionGeneratorEnclaveSecretHeader.
  repeat (destruct (decide _); [right; eexists; reflexivity|]). left. done.
Qed.

(** A field of [header] holding a non-empty value survives the merge. *)
Lemma MergeFrom_getters d h :
  secret_name h = kSecretName → secret_version h = kSecretVersion →
  secret_purpose h = kSecretPurpose →
  secret_name (MergeFrom d h) = kSecretName ∧ secret_version (MergeFrom d h) = kSecretVersion ∧
  secret_purpose (MergeFrom d h) = kSecretPurpose.
Proof.
  destruct h as [[n|] [v|] [p|] x]; cbn; unfold secret_name, secret_version, secret_purpose;
    cbn; intros Hn Hv Hp; subst; try discriminate. done.
Qed.

Lemma ok_Check h :
  ok (CheckRemoteAssertionGeneratorEnclaveSecretHeader h) = true ↔
  CheckRemoteAssertionGeneratorEnclaveSecretHeader h = OkStatus.
Proof.
  destruct (CheckRemoteAssertionGeneratorEnclaveSecretHeader_code h) as [->|[msg ->]];
    [done|]. unfold ok. cbn. split; discriminate.
Qed.

Section Claims.
Context `{E : SealingEnv}.

(** C7. Sealing round trip under a header H naming the Assertion
    Generator Enclave secret (the secret name, version and purpose that
    extraction checks for): if [CreateSealedSecret] seals the key and the
    chains, and the collaborators obey [SealingLaws], then extracting from
    the sealed secret constructs the key from exactly the DER bytes of the
    original key and sets the certificate chains to exactly the sealed
    list, whatever the out-parameter held before. *)
Theorem CreateSealedSecret_roundtrip (L : SealingLaws) header chains k ss der out0 :
  secret_name header = kSecretName → secret_version header = kSecretVersion →
  secret_purpose header = kSecretPurpose →
  CreateSealedSecret header chains k = Ok ss → SerializeToDer k = Ok der →
  ExtractAttestationKeyAndCertificateChainsFromSealedSecret ss out0 = (CreateFromDer der, chains).
Proof.
  intros Hn Hv Hp Hc Hd.
  unfold CreateSealedSecret, GetAsymmetricSigningKeyProtoFromSigningKey in Hc.
  rewrite Hd in Hc. cbn zeta in Hc. revert Hc.
  case_match; [discriminate|]. case_match; [discriminate|]. intros Hc.
  unfold ExtractAttestationKeyAndCertificateChainsFromSealedSecret.
  rewrite (Seal_header L _ _ _ _ Hc), (ParseHeader_SerializeHeader L).
  destruct (MergeFrom_getters SetDefaultHeader header Hn Hv Hp) as (Hn' & Hv' & Hp').
  rewrite (proj2 (ok_Check _)
             (proj2 (CheckRemoteAssertionGeneratorEnclaveSecretHeader_ok _)
                (conj Hn' (conj Hv' Hp')))).
  rewrite (Seal_Unseal L _ _ _ _ Hc), (ParseSecret_SerializeSecret L),
    (Seal_aad L _ _ _ _ Hc), (ParseAad_SerializeAad L).
  done.
Qed.

(** C8. Past a parsed header, extraction goes on only if the header's
    secret name, version and purpose all equal the constants; otherwise it
    returns INVALID_ARGUMENT with the out-parameter untouched and no key. *)
Theorem Extract_checks_header ss out0 h :
  ParseHeader (sealed_secret_header ss) = Some h →
  (CheckRemoteAssertionGeneratorEnclaveSecretHeader h = OkStatus ↔
   secret_name h = kSecretName ∧ secret_version h = kSecretVersion ∧
   secret_purpose h = kSecretPurpose) ∧
  (¬ (secret_name h = kSecretName ∧ secret_version h = kSecretVersion ∧
      secret_purpose h = kSecretPurpose) →
   ∃ msg, ExtractAttestationKeyAndCertificateChainsFromSealedSecret ss out0 =
          (Err (mkStatus INVALID_ARGUMENT msg), out0)) ∧
  (∀ key chains, ExtractAttestationKeyAndCertificateChainsFromSealedSecret ss out0 =
                 (Ok key, chains) →
   secret_name h = kSecretName ∧ secret_version h = kSecretVersion ∧
   secret_purpose h = kSecretPurpose).
Proof.
  intros Hh. split; [apply CheckRemoteAssertionGeneratorEnclaveSecretHeader_ok|].
  unfold ExtractAttestationKeyAndCertificateChainsFromSealedSecret. rewrite Hh.
  destruct (CheckRemoteAssertionGeneratorEnclaveSecretHeader_code h) as [Hc|[msg Hc]].
  - pose proof (proj1 (CheckRemoteAssertionGeneratorEnclaveSecretHeader_ok h) Hc) as Hm.
    split; [intros Hn; done|]. intros _ _ _. exact Hm.
  - rewrite Hc. unfold ok. cbn. split; [eauto|]. intros key chains [=].
Qed.

(** C9 (as the code has it). A key proto not in DER encoding is refused:
    with UNIMPLEMENTED when it is a signing key in PEM encoding, with
    INVALID_ARGUMENT otherwise (unknown encoding, or a key type other than
    SIGNING_KEY). *)
Theorem ExtractAttestationKey_non_der p :
  encoding p ≠ ASYMMETRIC_KEY_DER →
  ∃ msg, ExtractAttestationKeyFromAsymmetricSigningKeyProto p =
    Err (mkStatus (if decide (key_type p = SIGNING_KEY ∧ encoding p = ASYMMETRIC_KEY_PEM)
                   then UNIMPLEMENTED else INVALID_ARGUMENT) msg).
Proof.
  intros Hd. unfold ExtractAttestationKeyFromAsymmetricSigningKeyProto.
  destruct p as [k enc kt sch]; cbn in *. destruct kt, enc; try done; eexists; reflexivity.
Qed.

(** C10. A key proto whose key type is not SIGNING_KEY is refused with
    INVALID_ARGUMENT, an error fixed by its key type alone (its encoding
    and key bytes are not looked at, no key is constructed). The protos
    that [GetAsymmetricSigningKeyProtoFromSigningKey] produces are
    SIGNING_KEY protos in DER encoding, which extraction hands to
    [CreateFromDer]. *)
Theorem ExtractAttestationKey_key_type p :
  key_type p ≠ SIGNING_KEY →
  ExtractAttestationKeyFromAsymmetricSigningKeyProto p =
    Err (mkStatus INVALID_ARGUMENT
           (String.append "The sealed secret key has invalid key type: "
              (AsymmetricSigningKeyProto_KeyType_Name (key_type p)))) ∧
  (∀ k p', GetAsymmetricSigningKeyProtoFromSigningKey k = Ok p' →
     key_type p' = SIGNING_KEY ∧ encoding p' = ASYMMETRIC_KEY_DER ∧
     ExtractAttestationKeyFromAsymmetricSigningKeyProto p' = CreateFromDer (key p')).
Proof.
  intros Ht. split.
  - unfold ExtractAttestationKeyFromAsymmetricSigningKeyProto.
    destruct (decide (key_type p ≠ SIGNING_KEY)); done.
  - intros k p' Hg. unfold GetAsymmetricSigningKeyProtoFromSigningKey in Hg.
    destruct (SerializeToDer k) as [der|]; [|discriminate]. injection Hg as <-.
    split; [done|]. split; [done|]. done.
Qed.

End Claims.

Section Sealing.
Context `{E : SealingEnv}.

Lemma CreateSealedSecret_sealed header chains k ss :
  CreateSealedSecret header chains k = Ok ss →
  ∃ der, SerializeToDer k = Ok der ∧
    Seal (MergeFrom SetDefaultHeader header)
      (SerializeAad (mkRemoteAssertionGeneratorEnclaveSecretAad chains))
      (SerializeSecret (mkRemoteAssertionGeneratorEnclaveSecret
         (Some (SetAsymmetricSigningKeyProto der SIGNING_KEY (GetSignatureScheme k))))) = Ok ss.
Proof.
  unfold CreateSealedSecret, GetAsymmetricSigningKeyProtoFromSigningKey.
  destruct (SerializeToDer k) as [der|s]; [|discriminate]. cbn zeta.
  case_match; [discriminate|]. case_match; [discriminate|]. intros Hc. eauto.
Qed.

(** What [CreateSealedSecret] seals: the header is the sealer's default
    header with every field set in [header] written over it, the additional
    authenticated data parses back to exactly the given certificate chains,
    and the sealed payload unseals to a secret holding the key's DER bytes
    as a SIGNING_KEY proto in DER encoding with the key's signature
    scheme. *)
Theorem CreateSealedSecret_sealed_contents (L : SealingLaws) header chains k ss :
  CreateSealedSecret header chains k = Ok ss →
  ParseHeader (sealed_secret_header ss) = Some (MergeFrom SetDefaultHeader header) ∧
  ParseAad (additional_authenticated_data ss) =
    Some (mkRemoteAssertionGeneratorEnclaveSecretAad chains) ∧
  ∃ der b, SerializeToDer k = Ok der ∧ Unseal ss = Ok b ∧
    ParseSecret b = Some (mkRemoteAssertionGeneratorEnclaveSecret
      (Some (mkAsymmetricSigningKeyProto der ASYMMETRIC_KEY_DER SIGNING_KEY
               (GetSignatureScheme k)))).
Proof.
  intros Hc. destruct (CreateSealedSecret_sealed _ _ _ _ Hc) as (der & Hd & Hs).
  rewrite (Seal_header L _ _ _ _ Hs), (ParseHeader_SerializeHeader L).
  rewrite (Seal_aad L _ _ _ _ Hs), (ParseAad_SerializeAad L).
  split; [done|]. split; [done|].
  eexists der, _. split; [exact Hd|]. split; [exact (Seal_Unseal L _ _ _ _ Hs)|].
  apply (ParseSecret_SerializeSecret L).
Qed.

(** The header [GetRemoteAssertionGeneratorEnclaveSecretHeader] returns
    is the one to seal under: whatever the sealer's default header, a
    secret that [CreateSealedSecret] seals under it extracts back to the
    key built from the original key's DER bytes and to the sealed
    certificate chains. *)
Theorem CreateSealedSecret_enclave_header_roundtrip (L : SealingLaws) chains k ss der out0 :
  CreateSealedSecret GetRemoteAssertionGeneratorEnclaveSecretHeader chains k = Ok ss →
  SerializeToDer k = Ok der →
  ExtractAttestationKeyAndCertificateChainsFromSealedSecret ss out0 = (CreateFromDer der, chains).
Proof.
  intros Hc Hd. destruct (CreateSealedSecret_sealed _ _ _ _ Hc) as (der' & Hd' & Hs).
  rewrite Hd in Hd'. injection Hd' as <-.
  unfold ExtractAttestationKeyAndCertificateChainsFromSealedSecret.
  rewrite (Seal_header L _ _ _ _ Hs), (ParseHeader_SerializeHeader L).
  destruct (MergeFrom_getters SetDefaultHeader GetRemoteAssertionGeneratorEnclaveSecretHeader
              eq_refl eq_refl eq_refl) as (Hn & Hv & Hp).
  rewrite (proj2 (ok_Check _)
             (proj2 (CheckRemoteAssertionGeneratorEnclaveSecretHeader_ok _) (conj Hn (conj Hv Hp)))).
  rewrite (Seal_Unseal L _ _ _ _ Hs), (ParseSecret_SerializeSecret L),
    (Seal_aad L _ _ _ _ Hs), (ParseAad_SerializeAad L).
  done.
Qed.

(** [CreateSealedSecret] fails before sealing when the key cannot be
    exported, with the exporter's status unchanged. With protobuf's
    serialisation (a secret whose key is set serialises to a non-empty
    string, an additional authenticated data message with no chain to the
    empty string), an empty list of certificate chains is refused with
    INTERNAL: such a secret cannot be created at all. *)
Theorem CreateSealedSecret_errors header chains k :
  (∀ s, SerializeToDer k = Err s → CreateSealedSecret header chains k = Err s) ∧
  ((∀ p, bytes_empty (SerializeSecret (mkRemoteAssertionGeneratorEnclaveSecret (Some p))) = false) →
   bytes_empty (SerializeAad (mkRemoteAssertionGeneratorEnclaveSecretAad [])) = true →
   ∀ der, SerializeToDer k = Ok der →
   CreateSealedSecret header [] k =
     Err (mkStatus INTERNAL "Enclave additional authenticated data serialization failed")).
Proof.
  unfold CreateSealedSecret, GetAsymmetricSigningKeyProtoFromSigningKey. split.
  - intros s ->. done.
  - intros Hs Ha der ->. cbn zeta. rewrite Hs, Ha. done.
Qed.

(** Extraction either fails with the [certificate_chains] out-parameter
    as it was passed, or gets through the header parse, the header check,
    the unsealing and both parses; only then is the out-parameter
    overwritten with the sealed chains, and the key comes from the
    unsealed secret's attestation key (so the out-parameter is written
    even when that key is then refused). *)
Theorem Extract_outparam ss out0 :
  (∃ s, ExtractAttestationKeyAndCertificateChainsFromSealedSecret ss out0 = (Err s, out0)) ∨
  (∃ h b sec chains,
     ParseHeader (sealed_secret_header ss) = Some h ∧
     CheckRemoteAssertionGeneratorEnclaveSecretHeader h = OkStatus ∧
     Unseal ss = Ok b ∧ ParseSecret b = Some sec ∧
     ParseAad (additional_authenticated_data ss) =
       Some (mkRemoteAssertionGeneratorEnclaveSecretAad chains) ∧
     ExtractAttestationKeyAndCertificateChainsFromSealedSecret ss out0 =
       (ExtractAttestationKeyFromAsymmetricSigningKeyProto (attestation_key sec), chains)).
Proof.
  unfold ExtractAttestationKeyAndCertificateChainsFromSealedSecret.
  destruct (ParseHeader (sealed_secret_header ss)) as [h|] eqn:Hh; [|left; eauto].
  destruct (ok (CheckRemoteAssertionGeneratorEnclaveSecretHeader h)) eqn:Hok; [|left; eauto].
  destruct (Unseal ss) as [b|s] eqn:Hu; [|left; eauto].
  destruct (ParseSecret b) as [sec|] eqn:Hp; [|left; eauto].
  destruct (ParseAad (additional_authenticated_data ss)) as [[chains]|] eqn:Ha; [|left; eauto].
  right. exists h, b, sec, chains. apply ok_Check in Hok. done.
Qed.

(** A sealed secret whose unsealed payload has no attestation key set is
    refused by extraction with INVALID_ARGUMENT naming UNKNOWN_KEY_TYPE
    (the getter yields the default proto), and the out-parameter has
    already been overwritten with the sealed chains. *)
Theorem Extract_keyless_secret ss out0 h b chains :
  ParseHeader (sealed_secret_header ss) = Some h →
  CheckRemoteAssertionGeneratorEnclaveSecretHeader h = OkStatus →
  Unseal ss = Ok b →
  ParseSecret b = Some (mkRemoteAssertionGeneratorEnclaveSecret None) →
  ParseAad (additional_authenticated_data ss) =
    Some (mkRemoteAssertionGeneratorEnclaveSecretAad chains) →
  ExtractAttestationKeyAndCertificateChainsFromSealedSecret ss out0 =
    (Err (mkStatus INVALID_ARGUMENT
            "The sealed secret key has invalid key type: UNKNOWN_KEY_TYPE"), chains).
Proof.
  intros Hh Hc Hu Hp Ha. unfold ExtractAttestationKeyAndCertificateChainsFromSealedSecret.
  rewrite Hh, Hc, Hu, Hp, Ha. done.
Qed.

End Sealing.

Section PceSignReport.
Context `{E : SealingEnv} `{P : PceEnv}.

(** [CreateSerializedPceSignReportPayloadFromVerifyingKey] returns the
    key exporter's status unchanged when the key cannot be exported.
    Otherwise its result parses back to a payload of version
    [kPceSignReportPayloadVersion] whose attestation public key has the
    attestation key version and purpose constants and holds the key's DER
    bytes as a VERIFYING_KEY proto in DER encoding with the key's
    signature scheme. *)
Theorem CreateSerializedPceSignReportPayload_contents (L : PceLaws) vk :
  (∀ s, VerifyingKey_SerializeToDer vk = Err s →
     CreateSerializedPceSignReportPayloadFromVerifyingKey vk = Err s) ∧
  (∀ der, VerifyingKey_SerializeToDer vk = Ok der →
     ∃ b, CreateSerializedPceSignReportPayloadFromVerifyingKey vk = Ok b ∧
       ParsePceSignReportPayload b =
         Some (mkPceSignReportPayload (Some kPceSignReportPayloadVersion)
                 (Some (mkAttestationPublicKey (Some kAttestationPublicKeyVersion)
                          (Some kAttestationPublicKeyPurpose)
                          (Some (mkAsymmetricSigningKeyProto der ASYMMETRIC_KEY_DER
                                   VERIFYING_KEY (VerifyingKey_GetSignatureScheme vk))))))).
Proof.
  unfold CreateSerializedPceSignReportPayloadFromVerifyingKey. split.
  - intros s ->. done.
  - intros der ->. eexists. split; [reflexivity|]. apply (ParsePce_SerializePce L).
Qed.

(** The key a PCE Sign Report payload publishes is a verifying key:
    handed to [ExtractAttestationKeyFromAsymmetricSigningKeyProto] it is
    refused with INVALID_ARGUMENT for its key type VERIFYING_KEY, so a
    published public key is never loaded as an attestation key. *)
Theorem PceSignReportPayload_key_not_attestation_key (L : PceLaws) vk b p :
  CreateSerializedPceSignReportPayloadFromVerifyingKey vk = Ok b →
  ParsePceSignReportPayload b = Some p →
  ∃ apk k, PceSignReportPayload_attestation_public_key_ p = Some apk ∧
    AttestationPublicKey_attestation_public_key_ apk = Some k ∧
    ExtractAttestationKeyFromAsymmetricSigningKeyProto k =
      Err (mkStatus INVALID_ARGUMENT "The sealed secret key has invalid key type: VERIFYING_KEY").
Proof.
  unfold CreateSerializedPceSignReportPayloadFromVerifyingKey.
  destruct (VerifyingKey_SerializeToDer vk) as [der|s]; [|discriminate].
  intros [= <-]. rewrite (ParsePce_SerializePce L). intros [= <-].
  eexists _, _. split; [reflexivity|]. split; [reflexivity|]. done.
Qed.

End PceSignReport.

(** ** The claims on the instance [toy_env] (which obeys [toy_laws]) *)

#[local] Existing Instance toy_env.

Lemma CreateSealedSecret_roundtrip_witness :
  ∃ ss, CreateSealedSecret GetRemoteAssertionGeneratorEnclaveSecretHeader
          ["chain"%string] "key"%string = Ok ss ∧
        ExtractAttestationKeyAndCertificateChainsFromSealedSecret ss [] =
          (Ok "key"%string, ["chain"%string]).
Proof.
  eexists. split; [reflexivity|].
  apply (CreateSealedSecret_roundtrip toy_laws GetRemoteAssertionGeneratorEnclaveSecretHeader
           ["chain"%string] "key"%string _ "key"%string []); reflexivity.
Defined.

Lemma Extract_checks_header_witness :
  ParseHeader (sealed_secret_header other_purpose_sealed)
    = Some other_purpose_header ∧
  ∃ msg, ExtractAttestationKeyAndCertificateChainsFromSealedSecret
           other_purpose_sealed [] =
         (Err (mkStatus INVALID_ARGUMENT msg), []).
Proof.
  split; [reflexivity|].
  apply (proj1 (proj2 (Extract_checks_header
                         other_purpose_sealed []
                         other_purpose_header eq_refl))).
  intros (_ & _ & Hp). vm_compute in Hp. discriminate.
Defined.

Lemma ExtractAttestationKey_non_der_witness :
  encoding (mkAsymmetricSigningKeyProto "key" ASYMMETRIC_KEY_PEM SIGNING_KEY ECDSA_P256_SHA256)
    ≠ ASYMMETRIC_KEY_DER ∧
  ∃ msg, ExtractAttestationKeyFromAsymmetricSigningKeyProto
           (mkAsymmetricSigningKeyProto "key" ASYMMETRIC_KEY_PEM SIGNING_KEY ECDSA_P256_SHA256) =
         Err (mkStatus UNIMPLEMENTED msg).
Proof.
  split; [discriminate|].
  exact (ExtractAttestationKey_non_der
           (mkAsymmetricSigningKeyProto "key" ASYMMETRIC_KEY_PEM SIGNING_KEY ECDSA_P256_SHA256)
           ltac:(discriminate)).
Defined.

(** C9 as stated fails: a signing key with an unknown encoding is refused
    with INVALID_ARGUMENT, not UNIMPLEMENTED. *)
Lemma ExtractAttestationKey_non_der_counterexample :
  ¬ (∀ p, encoding p ≠ ASYMMETRIC_KEY_DER →
       ∃ msg, ExtractAttestationKeyFromAsymmetricSigningKeyProto p =
              Err (mkStatus UNIMPLEMENTED msg)).
Proof.
  intros H.
  destruct (H (mkAsymmetricSigningKeyProto "key" UNKNOWN_ASYMMETRIC_KEY_ENCODING SIGNING_KEY
                 ECDSA_P256_SHA256) ltac:(discriminate)) as [msg Hm].
  vm_compute in Hm. discriminate.
Qed.

Lemma ExtractAttestationKey_key_type_witness :
  key_type (mkAsymmetricSigningKeyProto "key" ASYMMETRIC_KEY_DER VERIFYING_KEY ECDSA_P256_SHA256)
    ≠ SIGNING_KEY ∧
  ExtractAttestationKeyFromAsymmetricSigningKeyProto
    (mkAsymmetricSigningKeyProto "key" ASYMMETRIC_KEY_DER VERIFYING_KEY ECDSA_P256_SHA256) =
  Err (mkStatus INVALID_ARGUMENT "The sealed secret key has invalid key type: VERIFYING_KEY").
Proof.
  split; [discriminate|].
  exact (proj1 (ExtractAttestationKey_key_type
                  (mkAsymmetricSigningKeyProto "key" ASYMMETRIC_KEY_DER VERIFYING_KEY
                     ECDSA_P256_SHA256) ltac:(discriminate))).
Defined.

Lemma CreateSealedSecret_sealed_contents_witness :
  ∃ ss, CreateSealedSecret other_purpose_header ["chain"%string] "key"%string = Ok ss ∧
    ParseHeader (sealed_secret_header ss) = Some (MergeFrom SetDefaultHeader other_purpose_header) ∧
    ParseAad (additional_authenticated_data ss) =
      Some (mkRemoteAssertionGeneratorEnclaveSecretAad ["chain"%string]) ∧
    ∃ der b, @SerializeToDer toy_env "key"%string = Ok der ∧ Unseal ss = Ok b ∧
      ParseSecret b = Some (mkRemoteAssertionGeneratorEnclaveSecret
        (Some (mkAsymmetricSigningKeyProto der ASYMMETRIC_KEY_DER SIGNING_KEY
                 (@GetSignatureScheme toy_env "key"%string)))).
Proof.
  eexists. split; [reflexivity|].
  apply (CreateSealedSecret_sealed_contents toy_laws other_purpose_header ["chain"%string]
           "key"%string).
  reflexivity.
Defined.

Lemma CreateSealedSecret_enclave_header_roundtrip_witness :
  ∃ ss, CreateSealedSecret GetRemoteAssertionGeneratorEnclaveSecretHeader
          ["chain1"%string; "chain2"%string] "key"%string = Ok ss ∧
        ExtractAttestationKeyAndCertificateChainsFromSealedSecret ss ["old"%string] =
          (Ok "key"%string, ["chain1"%string; "chain2"%string]).
Proof.
  eexists. split; [reflexivity|].
  apply (CreateSealedSecret_enclave_header_roundtrip toy_laws
           ["chain1"%string; "chain2"%string] "key"%string _ "key"%string ["old"%string]);
    reflexivity.
Defined.

Lemma CreateSealedSecret_errors_witness :
  (∀ s, @SerializeToDer toy_env "key"%string = Err s →
     CreateSealedSecret GetRemoteAssertionGeneratorEnclaveSecretHeader [] "key"%string = Err s) ∧
  CreateSealedSecret GetRemoteAssertionGeneratorEnclaveSecretHeader [] "key"%string =
    Err (mkStatus INTERNAL "Enclave additional authenticated data serialization failed").
Proof.
  destruct (@CreateSealedSecret_errors toy_env GetRemoteAssertionGeneratorEnclaveSecretHeader []
              "key"%string) as [H1 H2].
  split; [exact H1|].
  apply (H2 (fun p => eq_refl) eq_refl "key"%string eq_refl).
Defined.

Lemma Extract_keyless_secret_witness :
  ExtractAttestationKeyAndCertificateChainsFromSealedSecret keyless_sealed [] =
    (Err (mkStatus INVALID_ARGUMENT
            "The sealed secret key has invalid key type: UNKNOWN_KEY_TYPE"), ["chain"%string]).
Proof.
  apply (Extract_keyless_secret keyless_sealed [] GetRemoteAssertionGeneratorEnclaveSecretHeader
           BEmpty ["chain"%string]); vm_compute; reflexivity.
Defined.

#[local] Existing Instance toy_pce_env.

Lemma CreateSerializedPceSignReportPayload_contents_witness :
  ∃ b, CreateSerializedPceSignReportPayloadFromVerifyingKey "vk"%string = Ok b ∧
    ParsePceSignReportPayload b =
      Some (mkPceSignReportPayload (Some kPceSignReportPayloadVersion)
              (Some (mkAttestationPublicKey (Some kAttestationPublicKeyVersion)
                       (Some kAttestationPublicKeyPurpose)
                       (Some (mkAsymmetricSigningKeyProto "vk"%string ASYMMETRIC_KEY_DER
                                VERIFYING_KEY ECDSA_P256_SHA256))))).
Proof.
  apply (proj2 (CreateSerializedPceSignReportPayload_contents toy_pce_laws "vk"%string)).
  reflexivity.
Defined.

Lemma PceSignReportPayload_key_not_attestation_key_witness :
  ∃ b p, CreateSerializedPceSignReportPayloadFromVerifyingKey "vk"%string = Ok b ∧
    ParsePceSignReportPayload b = Some p ∧
    ∃ apk k, PceSignReportPayload_attestation_public_key_ p = Some apk ∧
      AttestationPublicKey_attestation_public_key_ apk = Some k ∧
      ExtractAttestationKeyFromAsymmetricSigningKeyProto k =
        Err (mkStatus INVALID_ARGUMENT "The sealed secret key has invalid key type: VERIFYING_KEY").
Proof.
  do 2 eexists. split; [reflexivity|]. split; [reflexivity|].
  eapply (PceSignReportPayload_key_not_attestation_key toy_pce_laws "vk"%string); reflexivity.
Defined.

End RemoteAssertionGeneratorEnclaveUtil.
